(** * flask-rss-feed: the ingestion pass, the article store queries and
      the syndication document of [app.py]

    The development embeds the functions of [app.py] ([get_feed],
    [update_feed], [index], [rss_feed]) and proves properties of them.

    Conventions of the embedding.
    - A Python [str] is a sequence of Unicode code points: [str := list N].
    - A [datetime] is its clock-face reading ([wall], microseconds counted
      on the clock face since 1970-01-01 00:00:00) and its tzinfo ([tz]);
      a naive datetime has [tz = None].
    - Library functions that are not part of the repository (the tz
      database behind [amsterdam_tz], [time.mktime], [datetime.strptime],
      [datetime.strftime]) are section variables.
    - The network and the clock are the inputs of a pass ([world]).
    - Exceptions are results: a function that can raise returns [result].
      This covers the exceptions of the date functions on dates out of
      range and SQLite's refusal of a LIKE pattern that is too long. *)

From Stdlib Require Import List ZArith NArith Bool Lia String Ascii.
From Stdlib Require Import Permutation Sorted.
Import ListNotations.

Local Open Scope Z_scope.

(** ** Text *)

Definition char := N.
Definition str := list char.

(** [lit s]: the text of a source literal, one code point per character. *)
Definition lit (s : string) : str :=
  List.map N_of_ascii (list_ascii_of_string s).

Definition str_eqb (a b : str) : bool :=
  if list_eq_dec N.eq_dec a b then true else false.

(** ** Dates and times *)

(** [tzinfo] objects the program meets: the fixed offset that [%z] parses
    (in microseconds east of UTC) and [amsterdam_tz]. *)
Inductive tzinfo : Type :=
| FixedOffset (utcoff : Z)
| Amsterdam.

Record datetime : Type := mkDatetime {
  wall : Z;                    (* the clock-face reading *)
  tz : option tzinfo           (* [None]: a naive datetime *)
}.

(** [time.struct_time], the nine fields of feedparser's [published_parsed]. *)
Record struct_time : Type := mkStructTime {
  tm_year : Z; tm_mon : Z; tm_mday : Z;
  tm_hour : Z; tm_min : Z; tm_sec : Z;
  tm_wday : Z; tm_yday : Z; tm_isdst : Z
}.

(** ** Parsed feed entries

    A feedparser entry is a dict with attribute access: a key is present
    or not, [k in entry] tests it, and [entry.k] raises [AttributeError]
    when it is absent.  The value under [published_parsed] can be [None]. *)
Record Entry : Type := mkEntry {
  e_title : option str;
  e_link : option str;
  e_pubDate : option str;
  e_published_parsed : option (option struct_time);
  e_summary : option str;
  e_description : option str
}.

(** ** Exceptions and results *)

Inductive exn : Type :=
| AttributeError (attr : str)   (* [entry.attr] on an absent key *)
| RequestException              (* raised by [requests.get] *)
| IntegrityError                (* a constraint of the table is violated *)
| OverflowError                 (* a date or an instant out of range *)
| ValueError                    (* a date string that does not parse,
                                   a year out of range *)
| OperationalError.             (* SQLite refuses to run the statement *)

Inductive result (A : Type) : Type :=
| Ok (a : A)
| Raise (e : exn).
Arguments Ok {A} a.
Arguments Raise {A} e.

Definition bind {A B : Type} (r : result A) (k : A -> result B) : result B :=
  match r with
  | Ok a => k a
  | Raise e => Raise e
  end.

Notation "x <- r ;; k" := (bind r (fun x => k))
  (at level 61, r at next level, right associativity).

(** [try: r  except ValueError: handler] *)
Definition except_ValueError {A : Type} (r handler : result A) : result A :=
  match r with
  | Raise ValueError => handler
  | _ => r
  end.

(** [entry.attr]: the value, or [AttributeError]. *)
Definition getattr (name : string) (field : option str) : result str :=
  match field with
  | Some v => Ok v
  | None => Raise (AttributeError (lit name))
  end.

(** ** The Article model (lines 23-28)

    [published] holds the datetime that the code gives to the column.  The
    column is a DateTime without time zone: what is written to the table,
    and what [ORDER BY] compares, is the clock-face reading [wall]. *)

Record Article : Type := mkArticle {
  id : Z;                          (* primary key *)
  title : str;                     (* nullable=False *)
  link : str;                      (* unique=True, nullable=False *)
  published : option datetime;     (* nullable=True *)
  summary : option str             (* nullable=True *)
}.

(** An [Article(...)] object before the INSERT gives it its [id]. *)
Record NewArticle : Type := mkNew {
  n_title : str;
  n_link : str;
  n_published : option datetime;
  n_summary : option str
}.

Section Normalisation.

(** The tz database: the UTC offset of Europe/Amsterdam at an instant. *)
Variable amsterdam_utcoffset : Z -> Z.
(** [time.mktime]: a struct_time read as local time, as an instant;
    [None] when it raises OverflowError (argument out of range). *)
Variable mktime : struct_time -> option Z.
(** [datetime.strptime(s, fmt)] for a format that ends in [%z]: the
    wall-clock reading and the offset parsed, or [None] for ValueError. *)
Variable strptime : str -> str -> option (Z * Z).

(** The Amsterdam datetime of an instant that [datetime] can hold, as
    [datetime.now(amsterdam_tz)] gives it for the reading of the clock. *)
Definition fromtimestamp (t : Z) : datetime :=
  mkDatetime (t + amsterdam_utcoffset t) (Some Amsterdam).

(** [datetime.min] and [datetime.max]: 0001-01-01 00:00:00 and
    9999-12-31 23:59:59.999999 on the clock face. *)
Definition datetime_min : Z := -62135596800000000.
Definition datetime_max : Z := 253402300799999999.

Definition representable (wl : Z) : bool :=
  (datetime_min <=? wl) && (wl <=? datetime_max).

(** [d.astimezone(amsterdam_tz)] for an aware [d] with a fixed offset:
    [d - offset], then the offset of Amsterdam added; either step raises
    OverflowError when it leaves the range of [datetime]. *)
Definition astimezone_amsterdam (wl off : Z) : result datetime :=
  let utc := wl - off in
  if representable utc && representable (utc + amsterdam_utcoffset utc)
  then Ok (fromtimestamp utc)
  else Raise OverflowError.

(** [time.mktime(t)] *)
Definition time_mktime (t : struct_time) : result Z :=
  match mktime t with
  | Some instant => Ok instant
  | None => Raise OverflowError
  end.

(** [datetime.fromtimestamp(t, amsterdam_tz)]: ValueError for a year
    outside 1..9999, OverflowError when the Amsterdam reading leaves the
    range. *)
Definition fromtimestamp_amsterdam (t : Z) : result datetime :=
  if negb (representable t) then Raise ValueError
  else if negb (representable (t + amsterdam_utcoffset t))
  then Raise OverflowError
  else Ok (fromtimestamp t).

(** [datetime.utcnow()] when the UTC clock reads [now]: naive. *)
Definition utcnow (now : Z) : datetime := mkDatetime now None.

Definition pubDate_format : str := lit "%a, %d %b %Y %H:%M:%S %z".

(** Lines 70-81: "Handle different date formats".  Only the first
    branch stands in a [try], and it catches ValueError only; every
    other exception of the date functions leaves the loop. *)
Definition published_dt (entry : Entry) (now : Z) : result datetime :=
  match e_pubDate entry with
  | Some s =>
      except_ValueError
        match strptime s pubDate_format with
        | Some (wl, off) => astimezone_amsterdam wl off
        | None => Raise ValueError
        end
        (Ok (utcnow now))
  | None =>
      match e_published_parsed entry with
      | Some (Some t) =>
          instant <- time_mktime t ;; fromtimestamp_amsterdam instant
      | _ => Ok (utcnow now)
      end
  end.

(** Line 84: [summary] if present, else [description], else [''] *)
Definition summary_text (entry : Entry) : str :=
  match e_summary entry with
  | Some s => s
  | None =>
      match e_description entry with
      | Some d => d
      | None => []
      end
  end.

End Normalisation.

(** ** The article table and the session

    The table is the list of its rows in rowid order.  [db.session.add]
    leaves the object pending; a query flushes the pending objects first
    (autoflush), and so does [commit].  The INSERT of a flush enforces the
    UNIQUE constraint on [link] and gives the row the next rowid. *)

Definition link_is (l : str) (a : Article) : bool := str_eqb (link a) l.

Definition next_id (rows : list Article) : Z :=
  1 + fold_right Z.max 0 (List.map id rows).

Definition insert_row (rows : list Article) (n : NewArticle)
  : result (list Article) :=
  if existsb (link_is (n_link n)) rows then Raise IntegrityError
  else Ok (rows ++ [mkArticle (next_id rows) (n_title n) (n_link n)
                              (n_published n) (n_summary n)]).

Fixpoint flush (rows : list Article) (pending : list NewArticle)
  : result (list Article) :=
  match pending with
  | [] => Ok rows
  | n :: rest => rows' <- insert_row rows n ;; flush rows' rest
  end.

Record session : Type := mkSession {
  rows : list Article;          (* the table inside the transaction *)
  pending : list NewArticle;    (* added, not yet flushed *)
  tick : nat                    (* entries handled so far in the pass *)
}.

(** [Article.query.filter_by(link=l).first()], after the autoflush. *)
Definition query_first_by_link (s : session) (l : str)
  : result (session * option Article) :=
  rows' <- flush (rows s) (pending s) ;;
  Ok (mkSession rows' [] (tick s), find (link_is l) rows').

Definition session_add (s : session) (n : NewArticle) : session :=
  mkSession (rows s) (pending s ++ [n]) (tick s).

(** The loop moves on to the next entry. *)
Definition next_entry (s : session) : session :=
  mkSession (rows s) (pending s) (S (tick s)).

(** ** The inputs of a pass *)

Record Response : Type := mkResponse {
  status_code : Z;
  text : str
}.

Record world : Type := mkWorld {
  (** [requests.get(url, headers=...)]: a response, or an exception
      (connection refused, timeout, ...). *)
  requests_get : str -> result Response;
  (** the reading of the UTC clock while the k-th entry of the pass is
      handled; [clock] at the final count is the reading at line 96. *)
  clock : nat -> Z
}.

Definition RSS_FEEDS : list str :=
  [ lit "https://feeds.nos.nl/nosnieuwsalgemeen";
    lit "https://www.nrc.nl/rss/";
    lit "https://fd.nl/?rss";
    lit "https://www.nu.nl/rss/algemeen";
    lit "https://www.ad.nl/home/rss.xml";
    lit "https://www.volkskrant.nl/voorpagina/rss.xml";
    lit "https://www.volkskrant.nl/nieuws-achtergrond/rss.xml";
    lit "https://www.volkskrant.nl/columns-opinie/rss.xml";
    lit "https://www.telegraaf.nl/rss";
    lit "https://www.trouw.nl/voorpagina/rss.xml" ].

Fixpoint foldM {A B : Type} (f : A -> B -> result A) (a : A) (l : list B)
  : result A :=
  match l with
  | [] => Ok a
  | b :: l' => a' <- f a b ;; foldM f a' l'
  end.

Section Ingestion.

Variable amsterdam_utcoffset : Z -> Z.
Variable mktime : struct_time -> option Z.
Variable strptime : str -> str -> option (Z * Z).
(** [feedparser.parse(text).entries]; the parser does not raise on
    malformed text, it returns the entries it finds. *)
Variable feedparser_parse : str -> list Entry.

(** Lines 30-38. *)
Definition get_feed (w : world) (url : str) : result (list Entry) :=
  response <- requests_get w url ;;
  Ok (feedparser_parse (text response)).

(** Lines 65-92: the body of the loop over [feed.entries]. *)
Definition process_entry (w : world) (s : session) (entry : Entry)
  : result session :=
  l <- getattr "link" (e_link entry) ;;
  q <- query_first_by_link s l ;;
  let (s, found) := q in
  match found with
  | Some _ => Ok (next_entry s)                          (* continue *)
  | None =>
      let now := clock w (tick s) in
      dt <- published_dt amsterdam_utcoffset mktime strptime entry now ;;
      let summary_text := summary_text entry in
      t <- getattr "title" (e_title entry) ;;
      l <- getattr "link" (e_link entry) ;;
      Ok (next_entry (session_add s (mkNew t l (Some dt) (Some summary_text))))
  end.

(** Lines 57-92: the body of the loop over [RSS_FEEDS]. *)
Definition process_feed (w : world) (s : session) (rss_url : str)
  : result session :=
  entries <- get_feed w rss_url ;;
  match entries with
  | [] => Ok s                                           (* continue *)
  | _ => foldM (process_entry w) s entries
  end.

(** What a pass leaves behind: the committed table and [last_reload]. *)
Record committed : Type := mkCommitted {
  table : list Article;
  last_reload : datetime
}.

(** Lines 40-97.  An exception leaves the [with] block before the
    commit: the transaction is rolled back, the table is as before. *)
Definition update_feed (w : world) (db : list Article) : result committed :=
  s <- foldM (process_feed w) (mkSession db [] 0) RSS_FEEDS ;;
  rows' <- flush (rows s) (pending s) ;;
  Ok (mkCommitted rows'
        (fromtimestamp amsterdam_utcoffset (clock w (tick s)))).

(** The table after a pass. *)
Definition table_after (db : list Article) (r : result committed)
  : list Article :=
  match r with
  | Ok c => table c
  | Raise _ => db
  end.

(** The scheduler runs one pass after the other, each in its own world. *)
Fixpoint run_passes (ws : list world) (db : list Article) : list Article :=
  match ws with
  | [] => db
  | w :: ws' => run_passes ws' (table_after db (update_feed w db))
  end.

End Ingestion.

(** ** The queries of the routes

    [ORDER BY published DESC LIMIT n] scans the table in rowid order and
    puts every row into a sorted index keyed by the column, descending,
    behind the rows already there with the same key.  SQLite orders NULL
    below every value, so with DESC the rows without a date come last.
    A DateTime column is compared on the clock-face reading it stores. *)

Definition sort_key (a : Article) : option Z := option_map wall (published a).

Definition key_lt (x y : option Z) : bool :=
  match x, y with
  | None, Some _ => true
  | Some a, Some b => a <? b
  | _, None => false
  end.

Fixpoint insert_desc (a : Article) (l : list Article) : list Article :=
  match l with
  | [] => [a]
  | b :: l' =>
      if key_lt (sort_key b) (sort_key a) then a :: b :: l'
      else b :: insert_desc a l'
  end.

Definition order_by_published_desc (rows : list Article) : list Article :=
  fold_left (fun index a => insert_desc a index) rows [].

(** [Article.query.order_by(Article.published.desc()).limit(n).all()] *)
Definition recent (n : nat) (rows : list Article) : list Article :=
  firstn n (order_by_published_desc rows).

Local Open Scope N_scope.

(** SQLite's [lower()] and its LIKE fold the 26 ASCII letters only. *)
Definition sqlite_lower (c : char) : char :=
  if (65 <=? c) && (c <=? 90) then c + 32 else c.

Definition percent : char := 37.
Definition underscore : char := 95.

(** SQLite's [patternCompare]: [%] stands for any run of characters,
    [_] for any one character, every other character for itself up to
    ASCII case. *)
Fixpoint pattern_compare (p s : str) : bool :=
  match p with
  | [] => match s with [] => true | _ => false end
  | c :: p' =>
      if c =? percent then
        (fix star (s : str) : bool :=
           pattern_compare p' s
           || match s with [] => false | _ :: s' => star s' end) s
      else
        match s with
        | [] => false
        | d :: s' =>
            ((c =? underscore) || (sqlite_lower c =? sqlite_lower d))
            && pattern_compare p' s'
        end
  end.

(** a text as a C string: up to its first U+0000 *)
Fixpoint c_string (s : str) : str :=
  match s with
  | [] => []
  | c :: s' => if c =? 0 then [] else c :: c_string s'
  end.

(** [s LIKE p]: SQLite reads the pattern and the text as C strings. *)
Definition like (p s : str) : bool :=
  pattern_compare (c_string p) (c_string s).

(** [column.ilike(p)] is rendered [lower(column) LIKE lower(p)]; on a
    NULL column the comparison is NULL, which a WHERE clause rejects. *)
Definition ilike (column : option str) (p : str) : bool :=
  match column with
  | Some s => like (List.map sqlite_lower p) (List.map sqlite_lower s)
  | None => false
  end.

(** Lines 116-121, with the limit as a parameter: the rows that the
    statement returns when SQLite runs it ([search_checked] below has the
    case where it refuses the pattern). *)
Definition search_filter (term : str) (a : Article) : bool :=
  let pattern := [percent] ++ term ++ [percent] in
  ilike (Some (title a)) pattern || ilike (summary a) pattern.

Definition search (term : str) (n : nat) (rows : list Article)
  : list Article :=
  firstn n (order_by_published_desc (List.filter (search_filter term) rows)).

(** The length of a text in UTF-8, as SQLite holds it. *)
Definition utf8_length_char (c : char) : N :=
  if c <? 128 then 1 else if c <? 2048 then 2 else if c <? 65536 then 3
  else 4.

Definition utf8_length (s : str) : N :=
  fold_right (fun c n => utf8_length_char c + n) 0 s.

(** SQLite's limit on the length of a LIKE pattern, in bytes. *)
Definition like_pattern_limit : N := 50000.

Definition pattern_too_complex (term : str) : bool :=
  like_pattern_limit <? utf8_length ([percent] ++ term ++ [percent]).

(** The query of lines 116-121 as it runs: LIKE raises "pattern too
    complex" at the first row it is applied to. *)
Definition search_checked (term : str) (n : nat) (rows : list Article)
  : result (list Article) :=
  match rows with
  | [] => Ok (search term n rows)
  | _ :: _ =>
      if pattern_too_complex term then Raise OperationalError
      else Ok (search term n rows)
  end.

(** [str.isspace] on one code point, and [str.strip()]. *)
Definition is_space (c : char) : bool :=
  ((9 <=? c) && (c <=? 13)) || ((28 <=? c) && (c <=? 32))
  || (c =? 133) || (c =? 160) || (c =? 5760)
  || ((8192 <=? c) && (c <=? 8202))
  || (c =? 8232) || (c =? 8233) || (c =? 8239) || (c =? 8287)
  || (c =? 12288).

Fixpoint lstrip (s : str) : str :=
  match s with
  | c :: s' => if is_space c then lstrip s' else s
  | [] => []
  end.

Definition strip (s : str) : str := rev (lstrip (rev (lstrip s))).

Local Close Scope N_scope.

(** [request.args.get('q', '')]: the request carries [q] or not. *)
Definition args_get_q (q : option str) : str :=
  match q with
  | Some v => v
  | None => []
  end.

(** Lines 111-123: the articles of the syndication document, when the
    query runs ([rss_articles_checked] below has the case where SQLite
    refuses the pattern). *)
Definition rss_articles (q : option str) (rows : list Article)
  : list Article :=
  let search_term := strip (args_get_q q) in
  match search_term with
  | [] => recent 10 rows
  | _ => search search_term 10 rows
  end.

Definition rss_articles_checked (q : option str) (rows : list Article)
  : result (list Article) :=
  let search_term := strip (args_get_q q) in
  match search_term with
  | [] => Ok (recent 10 rows)
  | _ => search_checked search_term 10 rows
  end.

(** Lines 99-103: what the page template is given, the 25 newest
    articles and the time of the last pass ([None] before the first). *)
Definition index (rows : list Article) (last : option datetime)
  : list Article * option datetime :=
  (recent 25 rows, last).

(** ** The syndication document (lines 126-154) *)

Definition nl : str := [10%N].
Definition dq : str := [34%N].

(** [f"{v}"] for a text column: the text, or [None] spelled out. *)
Definition format_opt (v : option str) : str :=
  match v with
  | Some s => s
  | None => lit "None"
  end.

Section Syndication.

(** [d.strftime(fmt)] *)
Variable strftime : datetime -> str -> str.

Definition rss_date_format : str := lit "%a, %d %b %Y %H:%M:%S %z".

Definition pub_date (article : Article) : str :=
  match published article with
  | Some d => strftime d rss_date_format
  | None => []
  end.

Definition item (article : Article) : str :=
  nl ++
  lit "        <item>" ++ nl ++
  lit "            <title>" ++ title article ++ lit "</title>" ++ nl ++
  lit "            <link>" ++ link article ++ lit "</link>" ++ nl ++
  lit "            <description><![CDATA[" ++ format_opt (summary article)
    ++ lit "]]></description>" ++ nl ++
  lit "            <pubDate>" ++ pub_date article ++ lit "</pubDate>" ++ nl ++
  lit "            <guid>" ++ link article ++ lit "</guid>" ++ nl ++
  lit "        </item>" ++ nl ++
  lit "        ".

Definition rss_head : str :=
  lit "<?xml version=" ++ dq ++ lit "1.0" ++ dq ++ lit " encoding=" ++ dq
    ++ lit "UTF-8" ++ dq ++ lit "?>" ++ nl ++
  lit "<rss version=" ++ dq ++ lit "2.0" ++ dq ++ lit ">" ++ nl ++
  lit "  <channel>" ++ nl ++
  lit "    <title>My Custom RSS Feed</title>" ++ nl ++
  lit "    <link>http://yourdomain.com/rss</link>" ++ nl ++
  lit "    <description>This is a custom RSS feed generated from our articles.</description>"
    ++ nl ++
  lit "    ".

Definition rss_tail : str :=
  nl ++
  lit "  </channel>" ++ nl ++
  lit "</rss>" ++ nl ++
  lit "    ".

Definition rss_feed_xml (articles : list Article) : str :=
  rss_head ++ List.concat (List.map item articles) ++ rss_tail.

Record HttpResponse : Type := mkHttpResponse {
  body : str;
  mimetype : str
}.

Definition rss_feed (q : option str) (rows : list Article) : HttpResponse :=
  mkHttpResponse (rss_feed_xml (rss_articles q rows))
                 (lit "application/rss+xml").

(** The route as it runs: the response, or the exception of the query. *)
Definition rss_feed_checked (q : option str) (rows : list Article)
  : result HttpResponse :=
  articles <- rss_articles_checked q rows ;;
  Ok (mkHttpResponse (rss_feed_xml articles) (lit "application/rss+xml")).

End Syndication.

(** ** Well-formed XML

    A reader for the constructs the route writes: the XML declaration and
    processing instructions, start tags with attributes, end tags,
    empty-element tags, character data, references and CDATA sections.
    It reads the document one character at a time, keeps the stack of
    open elements and records the start tags with their depth.  In
    character data it refuses [<] that opens no markup, [&] that opens no
    reference, and the closing mark of a CDATA section.  A
    document is well formed when the reader reaches its end in character
    data with no element open and exactly one root element read. *)

Local Open Scope N_scope.

Definition xml_char (c : char) : bool :=
  (c =? 9) || (c =? 10) || (c =? 13) || ((32 <=? c) && (c <=? 55295))
  || ((57344 <=? c) && (c <=? 65533)) || ((65536 <=? c) && (c <=? 1114111)).

Definition xml_space (c : char) : bool :=
  (c =? 32) || (c =? 9) || (c =? 10) || (c =? 13).

Definition ascii_letter (c : char) : bool :=
  ((65 <=? c) && (c <=? 90)) || ((97 <=? c) && (c <=? 122)).

Definition ascii_digit (c : char) : bool := (48 <=? c) && (c <=? 57).

Definition name_start (c : char) : bool :=
  ascii_letter c || (c =? 95) || (c =? 58) || ((128 <=? c) && xml_char c).

Definition name_char (c : char) : bool :=
  name_start c || ascii_digit c || (c =? 45) || (c =? 46).

Definition lt_sign : char := 60.
Definition gt_sign : char := 62.
Definition ampersand : char := 38.
Definition rbracket : char := 93.

Inductive xmode : Type :=
| Content (brackets : nat)         (* character data, after 0-2 [ ] ] *)
| Markup                           (* after [<] *)
| PI (question : bool)             (* in [<? ... ?>]; the last was [?] *)
| Bang (seen : nat)                (* after [<!], in the word [[CDATA[] *)
| CData (brackets : nat)           (* in a CDATA section, after 0-2 [ ] ] *)
| STagName (name : str)            (* in the name of a start tag *)
| STagSpace (name : str)           (* in a start tag, after white space *)
| AttrName (name : str)            (* in the name of an attribute *)
| AttrEq (name : str)              (* after the [=] of an attribute *)
| AttrValue (name : str) (quote : char)
| STagAfterValue (name : str)      (* after the closing quote *)
| EmptyTagEnd (name : str)         (* after the [/] of [<name ... />] *)
| ETagName (name : str)            (* in the name of an end tag *)
| ETagSpace (name : str)           (* in an end tag, after white space *)
| Ref (len : nat).                 (* after [&], [len] characters read *)

Record xstate : Type := mkX {
  xm : xmode;
  xopen : list str;                (* the open elements, innermost first *)
  xroots : nat;                    (* root elements closed so far *)
  xoutline : list (nat * str)      (* start tags read, latest first *)
}.

Definition is_nil {A : Type} (l : list A) : bool :=
  match l with [] => true | _ => false end.

Definition cdata_word : str := lit "[CDATA[".

Definition open_element (st : xstate) (name : str) : option xstate :=
  if is_nil (xopen st) && negb (Nat.eqb (xroots st) 0) then None
  else Some (mkX (Content 0) (name :: xopen st) (xroots st)
                 ((List.length (xopen st), name) :: xoutline st)).

Definition empty_element (st : xstate) (name : str) : option xstate :=
  if is_nil (xopen st) && negb (Nat.eqb (xroots st) 0) then None
  else Some (mkX (Content 0) (xopen st)
                 (if is_nil (xopen st) then S (xroots st) else xroots st)
                 ((List.length (xopen st), name) :: xoutline st)).

Definition close_element (st : xstate) (name : str) : option xstate :=
  match xopen st with
  | top :: rest =>
      if str_eqb top name
      then Some (mkX (Content 0) rest
                     (if is_nil rest then S (xroots st) else xroots st)
                     (xoutline st))
      else None
  | [] => None
  end.

Definition goto (st : xstate) (m : xmode) : option xstate :=
  Some (mkX m (xopen st) (xroots st) (xoutline st)).

Definition xstep (st : xstate) (c : char) : option xstate :=
  if negb (xml_char c) then None else
  match xm st with
  | Content brackets =>
      if c =? lt_sign then goto st Markup
      else if is_nil (xopen st)
      then (if xml_space c then goto st (Content 0) else None)
      else if c =? ampersand then goto st (Ref 0)
      else if c =? rbracket then goto st (Content (Nat.min (S brackets) 2))
      else if (c =? gt_sign) && Nat.eqb brackets 2 then None
      else goto st (Content 0)
  | Markup =>
      if c =? 63 then goto st (PI false)
      else if c =? 33
      then (if is_nil (xopen st) then None else goto st (Bang 0))
      else if c =? 47 then goto st (ETagName [])
      else if name_start c then goto st (STagName [c])
      else None
  | PI question =>
      if (c =? gt_sign) && question then goto st (Content 0)
      else goto st (PI (c =? 63))
  | Bang seen =>
      match nth_error cdata_word seen with
      | Some expected =>
          if c =? expected
          then goto st (if Nat.eqb (S seen) (List.length cdata_word)
                        then CData 0 else Bang (S seen))
          else None
      | None => None
      end
  | CData brackets =>
      if c =? rbracket then goto st (CData (Nat.min (S brackets) 2))
      else if (c =? gt_sign) && Nat.eqb brackets 2 then goto st (Content 0)
      else goto st (CData 0)
  | STagName name =>
      if name_char c then goto st (STagName (name ++ [c]))
      else if xml_space c then goto st (STagSpace name)
      else if c =? gt_sign then open_element st name
      else if c =? 47 then goto st (EmptyTagEnd name)
      else None
  | STagSpace name =>
      if xml_space c then goto st (STagSpace name)
      else if c =? gt_sign then open_element st name
      else if c =? 47 then goto st (EmptyTagEnd name)
      else if name_start c then goto st (AttrName name)
      else None
  | AttrName name =>
      if name_char c then goto st (AttrName name)
      else if c =? 61 then goto st (AttrEq name)
      else None
  | AttrEq name =>
      if (c =? 34) || (c =? 39) then goto st (AttrValue name c) else None
  | AttrValue name quote =>
      if c =? quote then goto st (STagAfterValue name)
      else if (c =? lt_sign) || (c =? ampersand) then None
      else goto st (AttrValue name quote)
  | STagAfterValue name =>
      if xml_space c then goto st (STagSpace name)
      else if c =? gt_sign then open_element st name
      else if c =? 47 then goto st (EmptyTagEnd name)
      else None
  | EmptyTagEnd name =>
      if c =? gt_sign then empty_element st name else None
  | ETagName name =>
      if name_char c then goto st (ETagName (name ++ [c]))
      else if is_nil name then None
      else if xml_space c then goto st (ETagSpace name)
      else if c =? gt_sign then close_element st name
      else None
  | ETagSpace name =>
      if xml_space c then goto st (ETagSpace name)
      else if c =? gt_sign then close_element st name
      else None
  | Ref len =>
      if name_char c || (c =? 35) then goto st (Ref (S len))
      else if (c =? 59) && negb (Nat.eqb len 0) then goto st (Content 0)
      else None
  end.

Local Close Scope N_scope.

Fixpoint xrun (st : xstate) (doc : str) : option xstate :=
  match doc with
  | [] => Some st
  | c :: doc' =>
      match xstep st c with
      | Some st' => xrun st' doc'
      | None => None
      end
  end.

Definition xinit : xstate := mkX (Content 0) [] 0 [].

Definition accepting (st : xstate) : bool :=
  match xm st with
  | Content _ => is_nil (xopen st) && Nat.eqb (xroots st) 1
  | _ => false
  end.

Definition well_formed (doc : str) : bool :=
  match xrun xinit doc with
  | Some st => accepting st
  | None => false
  end.


(** ** The search property in the words of the specification *)






(** ** Texts that can stand in the document as they are *)










(** ** A platform for the examples

    Stand-ins for the library functions, used where a statement is
    evaluated on concrete data: a server in UTC, Amsterdam in winter time,
    a parser that knows a handful of bodies. *)
Module Example.

Definition usec : Z := 1000000.

Definition amsterdam_utcoffset (t : Z) : Z := 3600 * usec.

(** days between 1970-01-01 and a civil date *)
Definition days_from_civil (y m d : Z) : Z :=
  let y' := if m <=? 2 then y - 1 else y in
  let era := y' / 400 in
  let yoe := y' - era * 400 in
  let mp := if 2 <? m then m - 3 else m + 9 in
  let doy := (153 * mp + 2) / 5 + d - 1 in
  let doe := yoe * 365 + yoe / 4 - yoe / 100 + doy in
  era * 146097 + doe - 719468.

Definition mktime (t : struct_time) : option Z :=
  if (tm_year t <? 1900 - 2147483648) || (2147483647 + 1900 <? tm_year t)
  then None
  else Some ((((days_from_civil (tm_year t) (tm_mon t) (tm_mday t) * 24
                + tm_hour t) * 60 + tm_min t) * 60 + tm_sec t) * usec).

Definition new_year_2024 : struct_time :=
  mkStructTime 2024 1 1 0 0 0 0 1 0.

(** knows one date string: 2024-01-01 12:00:00 at UTC+2 *)
Definition strptime (s fmt : str) : option (Z * Z) :=
  if str_eqb s (lit "Mon, 01 Jan 2024 12:00:00 +0200")
  then Some ((days_from_civil 2024 1 1 * 24 + 12) * 3600 * usec,
             2 * 3600 * usec)
  else None.

Definition strftime (d : datetime) (fmt : str) : str :=
  lit "Mon, 01 Jan 2024 12:00:00 +0100".

Definition entry (t l : string) : Entry :=
  mkEntry (Some (lit t)) (Some (lit l)) None None None None.

Definition storm : Entry := entry "Storm warning issued" "http://x/1".
Definition storm_again : Entry := entry "Storm warning lifted" "http://x/1".
Definition rain : Entry := entry "Rain" "http://x/2".

Definition no_link : Entry :=
  mkEntry (Some (lit "No link")) None None None None None.
Definition no_title : Entry :=
  mkEntry None (Some (lit "http://x/3")) None None None None.
Definition bare : Entry :=
  mkEntry (Some (lit "Bare")) (Some (lit "http://x/4")) None None None None.
Definition bad_pubDate : Entry :=
  mkEntry (Some (lit "Odd date")) (Some (lit "http://x/5"))
          (Some (lit "yesterday")) (Some (Some new_year_2024)) None None.
Definition tuple_only : Entry :=
  mkEntry (Some (lit "Tuple")) (Some (lit "http://x/7"))
          None (Some (Some new_year_2024)) None (Some (lit "described")).

(** the bodies the parser knows *)
Definition feedparser_parse (body : str) : list Entry :=
  if str_eqb body (lit "storm") then [storm]
  else if str_eqb body (lit "storm twice") then [storm; storm_again]
  else if str_eqb body (lit "rain") then [rain]
  else if str_eqb body (lit "no link, rain") then [no_link; rain]
  else if str_eqb body (lit "no title") then [no_title]
  else if str_eqb body (lit "bare") then [bare]
  else if str_eqb body (lit "sparse") then [bad_pubDate; tuple_only; bare]
  else [].

Definition nos : str := lit "https://feeds.nos.nl/nosnieuwsalgemeen".
Definition nrc : str := lit "https://www.nrc.nl/rss/".
Definition fd : str := lit "https://fd.nl/?rss".

(** 2024-01-15 12:00:00 UTC, in winter time *)
Definition noon : Z := (days_from_civil 2024 1 15 * 24 + 12) * 3600 * usec.

(** a world from the responses of the first three feeds; the other
    feeds answer 200 with an empty body; the clock stands at [noon]. *)
Definition world_of (r1 r2 r3 : result Response) : world :=
  mkWorld (fun url =>
             if str_eqb url nos then r1
             else if str_eqb url nrc then r2
             else if str_eqb url fd then r3
             else Ok (mkResponse 200 []))
          (fun k => noon + Z.of_nat k).

Definition ok (body : string) : result Response :=
  Ok (mkResponse 200 (lit body)).

Definition update_feed : world -> list Article -> result committed :=
  update_feed amsterdam_utcoffset mktime strptime feedparser_parse.

Definition run_passes : list world -> list Article -> list Article :=
  run_passes amsterdam_utcoffset mktime strptime feedparser_parse.

End Example.

(** ** Notions used in the statements *)

(** the links of a table, and how often one occurs *)
Definition links (rows : list Article) : list str := List.map link rows.

Definition count_link (l : str) (rows : list Article) : nat :=
  List.length (List.filter (link_is l) rows).

(** [rows'] is [rows] with rows added behind it *)
Definition extends (rows rows' : list Article) : Prop :=
  exists added, rows' = rows ++ added.

(** the table a query of the session would see *)
Definition view (s : session) : result (list Article) :=
  flush (rows s) (pending s).

(** the row that the INSERT makes of an entry with link [l], title [t]
    and date [d] *)
Definition row_of (r : list Article) (entry : Entry) (t l : str)
           (d : datetime) : Article :=
  mkArticle (next_id r) t l (Some d) (Some (summary_text entry)).

(** the entry with another value under [published_parsed] *)
Definition with_published_parsed (entry : Entry)
           (pp : option (option struct_time)) : Entry :=
  mkEntry (e_title entry) (e_link entry) (e_pubDate entry) pp
          (e_summary entry) (e_description entry).

(** [a] comes before [b]: a later date, or the same date (or none on both
    sides) and a smaller id. *)
Definition before (a b : Article) : Prop :=
  key_lt (sort_key b) (sort_key a) = true \/
  (sort_key a = sort_key b /\ id a < id b).

(** the ids of a table ascend with the rowid order *)
Definition ids_ascend (rows : list Article) : Prop :=
  StronglySorted (fun a b => id a < id b) rows.



(** a session whose pending objects can be flushed into a table with
    distinct links *)
Definition session_ok (s : session) : Prop :=
  exists r, view s = Ok r /\ NoDup (links r).

(** an article with a date and a summary *)
Definition populated (a : Article) : Prop :=
  published a <> None /\ summary a <> None.

Definition populated_new (n : NewArticle) : Prop :=
  n_published n <> None /\ n_summary n <> None.

(** the row [a] is what the loop body makes of the entry [e] in the
    world [w]: its title, its link, its summary or description, and its
    date normalised at a clock reading of the pass *)
Definition stored_from (amsterdam_utcoffset : Z -> Z)
           (mktime : struct_time -> option Z)
           (strptime : str -> str -> option (Z * Z))
           (w : world) (e : Entry) (a : Article) : Prop :=
  e_link e = Some (link a) /\ e_title e = Some (title a) /\
  summary a = Some (summary_text e) /\
  exists k d,
    published_dt amsterdam_utcoffset mktime strptime e (clock w k) = Ok d /\
    published a = Some d.

(** dates descend along the list, whatever the ids *)
Definition dates_descend (l : list Article) : Prop :=
  StronglySorted (fun a b => key_lt (sort_key a) (sort_key b) = false) l.

(** [str.rstrip()], the second half of [strip] *)
Definition rstrip (s : str) : str := rev (lstrip (rev s)).

(** the date functions accept the date fields of the entry *)
Definition date_in_range (amsterdam_utcoffset : Z -> Z)
           (mktime : struct_time -> option Z)
           (strptime : str -> str -> option (Z * Z)) (entry : Entry) : bool :=
  match published_dt amsterdam_utcoffset mktime strptime entry 0 with
  | Ok _ => true
  | Raise _ => false
  end.

Definition is_some {A : Type} (o : option A) : bool :=
  match o with Some _ => true | None => false end.

(** an entry that the loop body can store: it has a link and a title,
    and its date fields, if it has any, are in range *)
Definition acceptable (amsterdam_utcoffset : Z -> Z)
           (mktime : struct_time -> option Z)
           (strptime : str -> str -> option (Z * Z)) (entry : Entry) : bool :=
  is_some (e_link entry) && is_some (e_title entry)
  && date_in_range amsterdam_utcoffset mktime strptime entry.

(** every feed of the world answers, with acceptable entries *)
Definition acceptable_world (amsterdam_utcoffset : Z -> Z)
           (mktime : struct_time -> option Z)
           (strptime : str -> str -> option (Z * Z))
           (feedparser_parse : str -> list Entry) (w : world) : Prop :=
  forall url, In url RSS_FEEDS ->
    exists entries,
      get_feed feedparser_parse w url = Ok entries /\
      forall e, In e entries ->
                acceptable amsterdam_utcoffset mktime strptime e = true.

(** * Properties *)

(** ** Text equality *)

Lemma str_eqb_eq (a b : str) : str_eqb a b = true <-> a = b.
Proof.
  unfold str_eqb. destruct (list_eq_dec N.eq_dec a b); split; congruence.
Qed.

Lemma str_eqb_refl (a : str) : str_eqb a a = true.
Proof. now apply str_eqb_eq. Qed.

Lemma str_eqb_neq (a b : str) : str_eqb a b = false <-> a <> b.
Proof.
  unfold str_eqb. destruct (list_eq_dec N.eq_dec a b); split; congruence.
Qed.

(** ** The table under INSERT and flush *)



Lemma existsb_link_is (l : str) (rows : list Article) :
  existsb (link_is l) rows = true <-> In l (links rows).
Proof.
  unfold links. rewrite existsb_exists, in_map_iff. unfold link_is.
  split; intros [a [H1 H2]]; exists a.
  - apply str_eqb_eq in H2. auto.
  - split; [assumption | now apply str_eqb_eq].
Qed.

Lemma existsb_link_is_false (l : str) (rows : list Article) :
  existsb (link_is l) rows = false <-> ~ In l (links rows).
Proof.
  rewrite <- existsb_link_is. destruct (existsb (link_is l) rows); split;
    intros; congruence.
Qed.

Lemma find_existsb {A : Type} (f : A -> bool) (l : list A) :
  find f l = None <-> existsb f l = false.
Proof.
  induction l as [|a l IH]; simpl; [tauto|].
  destruct (f a); simpl; [split; discriminate | exact IH].
Qed.

Lemma insert_row_ok (rows : list Article) (n : NewArticle) :
  ~ In (n_link n) (links rows) ->
  insert_row rows n =
  Ok (rows ++ [mkArticle (next_id rows) (n_title n) (n_link n)
                         (n_published n) (n_summary n)]).
Proof.
  intros H. unfold insert_row.
  apply existsb_link_is_false in H. now rewrite H.
Qed.

Lemma insert_row_inv (rows rows' : list Article) (n : NewArticle) :
  insert_row rows n = Ok rows' ->
  ~ In (n_link n) (links rows) /\
  rows' = rows ++ [mkArticle (next_id rows) (n_title n) (n_link n)
                             (n_published n) (n_summary n)].
Proof.
  unfold insert_row.
  destruct (existsb (link_is (n_link n)) rows) eqn:E; [discriminate|].
  intros H. injection H as <-. split; [|reflexivity].
  now apply existsb_link_is_false.
Qed.


Lemma extends_refl (rows : list Article) : extends rows rows.
Proof. exists []. now rewrite app_nil_r. Qed.

Lemma extends_trans (r1 r2 r3 : list Article) :
  extends r1 r2 -> extends r2 r3 -> extends r1 r3.
Proof.
  intros [a ->] [b ->]. exists (a ++ b). now rewrite app_assoc.
Qed.

Lemma extends_links (r r' : list Article) (l : str) :
  extends r r' -> In l (links r) -> In l (links r').
Proof.
  intros [a ->] H. unfold links in *. rewrite map_app, in_app_iff. now left.
Qed.

Lemma flush_extends (pending : list NewArticle) :
  forall rows rows', flush rows pending = Ok rows' -> extends rows rows'.
Proof.
  induction pending as [|n rest IH]; simpl; intros rows rows' H.
  - injection H as <-. apply extends_refl.
  - destruct (insert_row rows n) as [r1|] eqn:E; simpl in H; [|discriminate].
    apply insert_row_inv in E. destruct E as [_ ->].
    apply IH in H. eapply extends_trans; [|exact H]. now eexists.
Qed.

(** ** Monadic folds *)

Lemma foldM_app {A B : Type} (f : A -> B -> result A) (l1 l2 : list B) :
  forall a, foldM f a (l1 ++ l2) = (a' <- foldM f a l1 ;; foldM f a' l2).
Proof.
  induction l1 as [|b l1 IH]; simpl; intros a; [reflexivity|].
  destruct (f a b); simpl; [apply IH | reflexivity].
Qed.

(** a step that is preserved by [f] is preserved by the fold *)
Lemma foldM_preserves {A B : Type} (f : A -> B -> result A)
      (R : A -> A -> Prop) :
  (forall a, R a a) ->
  (forall a b c, R a b -> R b c -> R a c) ->
  (forall a b a', f a b = Ok a' -> R a a') ->
  forall l a a', foldM f a l = Ok a' -> R a a'.
Proof.
  intros Hrefl Htrans Hstep l.
  induction l as [|b l IH]; simpl; intros a a' H.
  - injection H as <-. apply Hrefl.
  - destruct (f a b) as [a1|] eqn:E; simpl in H; [|discriminate].
    eapply Htrans; [eapply Hstep; eassumption | now apply IH].
Qed.

(** an element on which [f] raises in every state makes the fold raise *)
Lemma foldM_raises {A B : Type} (f : A -> B -> result A) (b : B) :
  (forall a, exists e, f a b = Raise e) ->
  forall l, In b l -> forall a, exists e, foldM f a l = Raise e.
Proof.
  intros Hb l. induction l as [|c l IH]; simpl; intros Hin a; [tauto|].
  destruct (f a c) as [a1|e] eqn:E; simpl.
  - destruct Hin as [->|Hin]; [|now apply IH].
    destruct (Hb a) as [e He]. congruence.
  - now exists e.
Qed.

(** ** One entry, one feed, one pass *)


Section IngestionFacts.

Variable amsterdam_utcoffset : Z -> Z.
Variable mktime : struct_time -> option Z.
Variable strptime : str -> str -> option (Z * Z).
Variable feedparser_parse : str -> list Entry.

Let entry_step := process_entry amsterdam_utcoffset mktime strptime.
Let feed_step :=
  process_feed amsterdam_utcoffset mktime strptime feedparser_parse.
Let pass :=
  update_feed amsterdam_utcoffset mktime strptime feedparser_parse.
Let passes :=
  run_passes amsterdam_utcoffset mktime strptime feedparser_parse.
Let date := published_dt amsterdam_utcoffset mktime strptime.

(** What the loop body does, case by case, in a session whose pending
    objects can be flushed. *)
Lemma process_entry_cases (w : world) (s : session) (entry : Entry)
      (r : list Article) :
  view s = Ok r ->
  match e_link entry with
  | None => entry_step w s entry = Raise (AttributeError (lit "link"))
  | Some l =>
      if existsb (link_is l) r
      then entry_step w s entry = Ok (mkSession r [] (S (tick s)))
      else match date entry (clock w (tick s)) with
           | Raise ex => entry_step w s entry = Raise ex
           | Ok d =>
               match e_title entry with
               | None =>
                   entry_step w s entry
                   = Raise (AttributeError (lit "title"))
               | Some t =>
                   entry_step w s entry =
                   Ok (mkSession r
                         [mkNew t l (Some d) (Some (summary_text entry))]
                         (S (tick s)))
               end
           end
  end.
Proof.
  intros Hv. unfold entry_step, process_entry.
  destruct (e_link entry) as [l|]; simpl; [|reflexivity].
  unfold query_first_by_link. unfold view in Hv. rewrite Hv. simpl.
  destruct (existsb (link_is l) r) eqn:E.
  - destruct (find (link_is l) r) eqn:F; [reflexivity|].
    apply find_existsb in F. congruence.
  - apply find_existsb in E. rewrite E. unfold date.
    destruct (published_dt _ _ _ entry _); simpl; [|reflexivity].
    destruct (e_title entry); reflexivity.
Qed.

(** The session after the loop body, when it does not raise: the view
    has grown by at most the row of the entry, its links are still
    distinct, and the link of the entry is in it. *)
Lemma process_entry_view (w : world) (s s' : session) (entry : Entry)
      (r : list Article) :
  view s = Ok r -> NoDup (links r) ->
  entry_step w s entry = Ok s' ->
  exists l r',
    e_link entry = Some l /\ view s' = Ok r' /\ NoDup (links r') /\
    In l (links r') /\ tick s' = S (tick s) /\
    (r' = r \/
     exists t d,
       e_title entry = Some t /\ ~ In l (links r) /\
       date entry (clock w (tick s)) = Ok d /\
       r' = r ++ [row_of r entry t l d]).
Proof.
  intros Hv Hnd H. pose proof (process_entry_cases w s entry r Hv) as C.
  destruct (e_link entry) as [l|]; [|congruence].
  exists l. destruct (existsb (link_is l) r) eqn:E.
  - rewrite C in H. injection H as <-. exists r. unfold view. simpl.
    apply existsb_link_is in E. auto 10.
  - destruct (date entry (clock w (tick s))) as [d|] eqn:D; [|congruence].
    destruct (e_title entry) as [t|]; [|congruence].
    rewrite C in H. injection H as <-.
    apply existsb_link_is_false in E.
    exists (r ++ [row_of r entry t l d]).
    unfold view. simpl. rewrite insert_row_ok by exact E. simpl.
    repeat split; try reflexivity.
    + unfold links. rewrite map_app. simpl.
      apply NoDup_app; [exact Hnd | repeat constructor; simpl; tauto |].
      intros x Hx [<-|[]]. now apply E.
    + unfold links. rewrite map_app, in_app_iff. right. now left.
    + right. exists t, d. auto.
Qed.

Lemma process_entry_rows (w : world) (s s' : session) (entry : Entry) :
  entry_step w s entry = Ok s' -> extends (rows s) (rows s').
Proof.
  unfold entry_step, process_entry, query_first_by_link.
  destruct (e_link entry) as [l|]; simpl; [|discriminate].
  destruct (flush (rows s) (pending s)) as [r|] eqn:F; simpl; [|discriminate].
  apply flush_extends in F.
  destruct (find (link_is l) r).
  - intros H. injection H as <-. exact F.
  - destruct (published_dt _ _ _ entry _); simpl; [|discriminate].
    destruct (e_title entry); simpl; [|discriminate].
    intros H. injection H as <-. exact F.
Qed.

Lemma process_feed_fold (w : world) (s : session) (url : str) :
  feed_step w s url =
  (entries <- get_feed feedparser_parse w url ;;
   foldM (entry_step w) s entries).
Proof.
  unfold feed_step, process_feed.
  destruct (get_feed feedparser_parse w url) as [[|e es]|]; reflexivity.
Qed.

Lemma process_feed_rows (w : world) (s s' : session) (url : str) :
  feed_step w s url = Ok s' -> extends (rows s) (rows s').
Proof.
  rewrite process_feed_fold.
  destruct (get_feed feedparser_parse w url) as [es|]; simpl; [|discriminate].
  apply (foldM_preserves (entry_step w)
           (fun a b => extends (rows a) (rows b))).
  - intros a. apply extends_refl.
  - intros a b c. apply extends_trans.
  - intros a b a'. apply process_entry_rows.
Qed.

(** the entries of a feed, handled one after the other *)
Lemma entries_view (w : world) (entries : list Entry) :
  forall (s s' : session) (r : list Article),
    view s = Ok r -> NoDup (links r) ->
    foldM (entry_step w) s entries = Ok s' ->
    exists r',
      view s' = Ok r' /\ NoDup (links r') /\ extends r r' /\
      forall e, In e entries ->
                exists l, e_link e = Some l /\ In l (links r').
Proof.
  induction entries as [|e es IH]; simpl; intros s s' r Hv Hnd H.
  - injection H as <-. exists r. repeat split; auto using extends_refl.
    intros e [].
  - destruct (entry_step w s e) as [s1|] eqn:E; simpl in H; [|discriminate].
    destruct (process_entry_view w s s1 e r Hv Hnd E)
      as (l & r1 & Hl & Hv1 & Hnd1 & Hin1 & _ & Hr1).
    destruct (IH s1 s' r1 Hv1 Hnd1 H) as (r' & Hv' & Hnd' & Hext & Hall).
    exists r'. repeat split; auto.
    + eapply extends_trans; [|exact Hext].
      destruct Hr1 as [->|(t & d & _ & _ & _ & ->)];
        [apply extends_refl | now eexists].
    + intros e0 [<-|Hin]; [|now apply Hall].
      exists l. split; [exact Hl | eapply extends_links; eassumption].
Qed.

(** the feeds of a pass, handled one after the other *)
Lemma feeds_view (w : world) (urls : list str) :
  forall (s s' : session) (r : list Article),
    view s = Ok r -> NoDup (links r) ->
    foldM (feed_step w) s urls = Ok s' ->
    exists r',
      view s' = Ok r' /\ NoDup (links r') /\ extends r r' /\
      forall url, In url urls ->
        exists entries,
          get_feed feedparser_parse w url = Ok entries /\
          forall e, In e entries ->
                    exists l, e_link e = Some l /\ In l (links r').
Proof.
  induction urls as [|u us IH]; simpl; intros s s' r Hv Hnd H.
  - injection H as <-. exists r. repeat split; auto using extends_refl.
    intros u [].
  - destruct (feed_step w s u) as [s1|] eqn:E; simpl in H; [|discriminate].
    rewrite process_feed_fold in E.
    destruct (get_feed feedparser_parse w u) as [es|] eqn:G; simpl in E;
      [|discriminate].
    destruct (entries_view w es s s1 r Hv Hnd E)
      as (r1 & Hv1 & Hnd1 & Hext1 & Hall1).
    destruct (IH s1 s' r1 Hv1 Hnd1 H) as (r' & Hv' & Hnd' & Hext & Hall).
    exists r'. repeat split; auto.
    + eapply extends_trans; eassumption.
    + intros u0 [<-|Hin]; [|now apply Hall].
      exists es. split; [exact G|]. intros e He.
      destruct (Hall1 e He) as (l & Hl & Hin). exists l. split; [exact Hl|].
      eapply extends_links; eassumption.
Qed.

(** A pass that commits: distinct links stay distinct, the table has
    grown at its end, and the link of every entry of every feed is in it. *)
Lemma update_feed_commits (w : world) (db : list Article) (c : committed) :
  NoDup (links db) ->
  pass w db = Ok c ->
  NoDup (links (table c)) /\ extends db (table c) /\
  forall url, In url RSS_FEEDS ->
    exists entries,
      get_feed feedparser_parse w url = Ok entries /\
      forall e, In e entries ->
                exists l, e_link e = Some l /\ In l (links (table c)).
Proof.
  intros Hnd H. unfold pass, update_feed in H.
  destruct (foldM _ _ RSS_FEEDS) as [s|] eqn:F; simpl in H; [|discriminate].
  assert (Hv0 : view (mkSession db [] 0) = Ok db) by reflexivity.
  destruct (feeds_view w RSS_FEEDS _ s db Hv0 Hnd F)
    as (r' & Hv' & Hnd' & Hext & Hall).
  unfold view in Hv'. rewrite Hv' in H. simpl in H. injection H as <-.
  simpl. auto.
Qed.

Lemma table_after_extends (w : world) (db : list Article) :
  extends db (table_after db (pass w db)).
Proof.
  destruct (pass w db) as [c|] eqn:H; simpl; [|apply extends_refl].
  unfold pass, update_feed in H.
  destruct (foldM _ _ RSS_FEEDS) as [s|] eqn:F; simpl in H; [|discriminate].
  destruct (flush (rows s) (pending s)) as [r|] eqn:E; simpl in H;
    [|discriminate].
  injection H as <-. simpl.
  apply flush_extends in E.
  eapply extends_trans; [|exact E].
  apply (foldM_preserves (feed_step w)
           (fun a b => extends (rows a) (rows b))) in F; [exact F|..].
  - intros a. apply extends_refl.
  - intros a b c. apply extends_trans.
  - intros a b a'. apply process_feed_rows.
Qed.

Lemma table_after_NoDup (w : world) (db : list Article) :
  NoDup (links db) -> NoDup (links (table_after db (pass w db))).
Proof.
  intros Hnd. destruct (pass w db) as [c|] eqn:H; simpl; [|exact Hnd].
  now destruct (update_feed_commits w db c Hnd H).
Qed.

Lemma run_passes_extends (ws : list world) :
  forall db, extends db (passes ws db).
Proof.
  induction ws as [|w ws IH]; simpl; intros db; [apply extends_refl|].
  eapply extends_trans; [apply table_after_extends | apply IH].
Qed.

Lemma run_passes_NoDup (ws : list world) :
  forall db, NoDup (links db) -> NoDup (links (passes ws db)).
Proof.
  induction ws as [|w ws IH]; simpl; intros db Hnd; [exact Hnd|].
  apply IH. now apply table_after_NoDup.
Qed.

Lemma run_passes_app (ws1 ws2 : list world) :
  forall db, passes (ws1 ++ ws2) db = passes ws2 (passes ws1 db).
Proof.
  induction ws1 as [|w ws1 IH]; simpl; intros db; [reflexivity | apply IH].
Qed.

End IngestionFacts.

Lemma count_link_absent (l : str) (r : list Article) :
  ~ In l (links r) -> count_link l r = 0%nat.
Proof.
  unfold count_link, links. induction r as [|a r IH]; simpl; intros H.
  - reflexivity.
  - unfold link_is at 1. destruct (str_eqb (link a) l) eqn:E.
    + apply str_eqb_eq in E. tauto.
    + apply IH. tauto.
Qed.

Lemma count_link_once (l : str) (r : list Article) :
  NoDup (links r) -> In l (links r) -> count_link l r = 1%nat.
Proof.
  unfold links. induction r as [|a r IH]; simpl; intros Hnd Hin; [tauto|].
  inversion Hnd as [|x xs Hx Hnd']; subst.
  unfold count_link. simpl. unfold link_is at 1.
  destruct (str_eqb (link a) l) eqn:E.
  - apply str_eqb_eq in E. subst l. simpl.
    f_equal. now apply count_link_absent.
  - apply str_eqb_neq in E. destruct Hin as [Hin|Hin]; [tauto|].
    now apply IH.
Qed.

(** ** Later passes leave the stored articles alone *)

(** C8.  After any number of passes the table is the table before them
    with rows added at its end: every article that was stored is still
    there, at its place, with the same id, title, link, date and summary. *)
Theorem passes_only_append
        (amsterdam_utcoffset : Z -> Z) (mktime : struct_time -> option Z)
        (strptime : str -> str -> option (Z * Z))
        (feedparser_parse : str -> list Entry)
        (ws : list world) (db : list Article) :
  exists added,
    run_passes amsterdam_utcoffset mktime strptime feedparser_parse ws db
    = db ++ added.
Proof. apply run_passes_extends. Qed.

(** ** Exceptions inside a pass *)

Section Raising.

Variable amsterdam_utcoffset : Z -> Z.
Variable mktime : struct_time -> option Z.
Variable strptime : str -> str -> option (Z * Z).
Variable feedparser_parse : str -> list Entry.

Let entry_step := process_entry amsterdam_utcoffset mktime strptime.
Let feed_step :=
  process_feed amsterdam_utcoffset mktime strptime feedparser_parse.
Let pass :=
  update_feed amsterdam_utcoffset mktime strptime feedparser_parse.

(** a feed that raises in every session makes the pass raise, and the
    table stays as it was *)
Lemma update_feed_raises (w : world) (db : list Article) (url : str) :
  In url RSS_FEEDS ->
  (forall s, exists e, feed_step w s url = Raise e) ->
  exists e, pass w db = Raise e /\
            table_after db (pass w db) = db.
Proof.
  intros Hin Hraise.
  destruct (foldM_raises (feed_step w) url Hraise RSS_FEEDS Hin
                         (mkSession db [] 0)) as [e He].
  exists e. unfold pass, update_feed.
  fold feed_step. rewrite He. simpl. auto.
Qed.

Lemma process_feed_request_raises (w : world) (url : str) (e : exn) :
  requests_get w url = Raise e ->
  forall s, feed_step w s url = Raise e.
Proof.
  intros H s. unfold feed_step, process_feed, get_feed.
  now rewrite H.
Qed.

Lemma process_entry_no_link (w : world) (s : session) (entry : Entry) :
  e_link entry = None ->
  entry_step w s entry = Raise (AttributeError (lit "link")).
Proof.
  intros H. unfold entry_step, process_entry. now rewrite H.
Qed.

Lemma process_feed_no_link (w : world) (url : str) (entries : list Entry)
      (entry : Entry) :
  get_feed feedparser_parse w url = Ok entries ->
  In entry entries -> e_link entry = None ->
  forall s, exists e, feed_step w s url = Raise e.
Proof.
  intros Hget Hin Hl s.
  unfold feed_step. rewrite process_feed_fold, Hget. simpl.
  apply (foldM_raises (process_entry amsterdam_utcoffset mktime
                                               strptime w) entry);
    [|exact Hin].
  intros a. eexists. now apply process_entry_no_link.
Qed.


(** whether the date functions raise does not depend on the clock *)
Lemma date_in_range_now (entry : Entry) (now : Z) :
  date_in_range amsterdam_utcoffset mktime strptime entry = true ->
  exists d,
    published_dt amsterdam_utcoffset mktime strptime entry now = Ok d.
Proof.
  unfold date_in_range, published_dt.
  destruct (e_pubDate entry) as [s|].
  - destruct (strptime s pubDate_format) as [[wl off]|]; simpl; [|eauto].
    destruct (astimezone_amsterdam amsterdam_utcoffset wl off) as [d|[]];
      simpl; try discriminate; eauto.
  - destruct (e_published_parsed entry) as [[t|]|]; simpl; eauto.
    destruct (time_mktime mktime t) as [i|]; simpl; [|discriminate].
    destruct (fromtimestamp_amsterdam amsterdam_utcoffset i); [eauto|].
    discriminate.
Qed.

(** acceptable entries are handled without an exception *)
Lemma entries_accepted (w : world) (entries : list Entry) :
  forall (s : session) (r : list Article),
    view s = Ok r -> NoDup (links r) ->
    (forall e, In e entries ->
               acceptable amsterdam_utcoffset mktime strptime e = true) ->
    exists s' r',
      foldM (entry_step w) s entries = Ok s' /\
      view s' = Ok r' /\ NoDup (links r').
Proof.
  induction entries as [|e es IH]; simpl; intros s r Hv Hnd Hall.
  - exists s, r. auto.
  - assert (E : exists s1, entry_step w s e = Ok s1).
    { pose proof (process_entry_cases amsterdam_utcoffset mktime strptime
                    w s e r Hv) as C.
      pose proof (Hall e (or_introl eq_refl)) as Ha.
      unfold acceptable in Ha. rewrite !andb_true_iff in Ha.
      destruct Ha as [[Hl Ht] Hd].
      destruct (e_link e) as [l|]; [|discriminate].
      destruct (existsb (link_is l) r); [eauto|].
      destruct (date_in_range_now e (clock w (tick s)) Hd) as [d Hd'].
      rewrite Hd' in C.
      destruct (e_title e) as [t|]; [eauto | discriminate]. }
    destruct E as [s1 E]. unfold entry_step in *. rewrite E. simpl.
    destruct (process_entry_view amsterdam_utcoffset mktime strptime
                feedparser_parse w s s1 e r Hv Hnd E)
      as (l & r1 & _ & Hv1 & Hnd1 & _).
    apply (IH s1 r1 Hv1 Hnd1). intros e0 H0. apply Hall. now right.
Qed.

Lemma feeds_accepted (w : world) (urls : list str) :
  forall (s : session) (r : list Article),
    view s = Ok r -> NoDup (links r) ->
    (forall url, In url urls ->
       exists entries,
         get_feed feedparser_parse w url = Ok entries /\
         forall e, In e entries ->
                   acceptable amsterdam_utcoffset mktime strptime e = true) ->
    exists s' r',
      foldM (feed_step w) s urls = Ok s' /\
      view s' = Ok r' /\ NoDup (links r').
Proof.
  induction urls as [|u us IH]; simpl; intros s r Hv Hnd Hall.
  - exists s, r. auto.
  - destruct (Hall u (or_introl eq_refl)) as (es & Hget & Hes).
    destruct (entries_accepted w es s r Hv Hnd Hes)
      as (s1 & r1 & E & Hv1 & Hnd1).
    unfold feed_step at 1. rewrite process_feed_fold, Hget. simpl.
    unfold entry_step in E. rewrite E. simpl.
    apply (IH s1 r1 Hv1 Hnd1). intros u0 H0. apply Hall. now right.
Qed.

(** a pass over acceptable entries commits, whatever the table holds *)
Lemma update_feed_accepts (w : world) (db : list Article) :
  NoDup (links db) ->
  acceptable_world amsterdam_utcoffset mktime strptime feedparser_parse w ->
  exists c, pass w db = Ok c.
Proof.
  intros Hnd Hall.
  destruct (feeds_accepted w RSS_FEEDS (mkSession db [] 0) db eq_refl Hnd Hall)
    as (s' & r' & F & Hv & _).
  unfold pass, update_feed. fold feed_step.
  rewrite F. simpl. unfold view in Hv. rewrite Hv. simpl. eauto.
Qed.

End Raising.

(** ** A fetch that fails *)

(** C2, as the code has it.  A feed whose response parses to no entries,
    whatever its status code, leaves the session as it is and the loop goes
    on to the next feed.  An exception of [requests.get] (connection
    refused, timeout) is not caught: the pass ends with an exception and
    the table is the one from before the pass. *)
Theorem fetch_failure_in_a_pass
        (amsterdam_utcoffset : Z -> Z) (mktime : struct_time -> option Z)
        (strptime : str -> str -> option (Z * Z))
        (feedparser_parse : str -> list Entry)
        (w : world) (db : list Article) (url : str) :
  In url RSS_FEEDS ->
  match requests_get w url with
  | Ok response =>
      feedparser_parse (text response) = [] ->
      forall s,
        process_feed amsterdam_utcoffset mktime strptime feedparser_parse
                     w s url = Ok s
  | Raise e =>
      exists e',
        update_feed amsterdam_utcoffset mktime strptime feedparser_parse w db
        = Raise e' /\
        table_after db
          (update_feed amsterdam_utcoffset mktime strptime feedparser_parse
                       w db) = db
  end.
Proof.
  intros Hin. destruct (requests_get w url) as [response|e] eqn:R.
  - intros Hempty s. unfold process_feed, get_feed. rewrite R. simpl.
    now rewrite Hempty.
  - apply update_feed_raises with (url := url); [exact Hin|].
    intros s. exists e. now apply process_feed_request_raises.
Qed.

(** The second feed refuses the connection: the pass raises, and the
    article of the first feed is not stored either. *)
Lemma fetch_failure_in_a_pass_witness :
  exists e',
    Example.update_feed
      (Example.world_of (Example.ok "storm") (Raise RequestException)
                        (Example.ok "rain")) [] = Raise e' /\
    table_after []
      (Example.update_feed
         (Example.world_of (Example.ok "storm") (Raise RequestException)
                           (Example.ok "rain")) []) = [].
Proof.
  apply (fetch_failure_in_a_pass
           Example.amsterdam_utcoffset Example.mktime Example.strptime
           Example.feedparser_parse
           (Example.world_of (Example.ok "storm") (Raise RequestException)
                             (Example.ok "rain"))
           [] Example.nrc).
  right. left. reflexivity.
Defined.

(** C2 as stated fails: with the second feed refusing the connection the
    pass raises and the third feed is never read, while with the second
    feed answering an empty body the pass commits the articles of the
    first and the third feed. *)
Lemma fetch_failure_aborts_the_pass :
  Example.update_feed
    (Example.world_of (Example.ok "storm") (Raise RequestException)
                      (Example.ok "rain")) []
  = Raise RequestException /\
  List.map link
    (table_after []
       (Example.update_feed
          (Example.world_of (Example.ok "storm") (Example.ok "")
                            (Example.ok "rain")) []))
  = [lit "http://x/1"; lit "http://x/2"].
Proof. split; vm_compute; reflexivity. Qed.

(** ** Entries with fields missing *)

(** C7 as stated fails: an entry without a link is not dropped.  The
    first feed carries such an entry, then one with a link; the pass
    raises [AttributeError] and stores nothing. *)
Lemma entry_without_link_raises :
  Example.feedparser_parse (lit "no link, rain")
  = [Example.no_link; Example.rain] /\
  Example.update_feed
    (Example.world_of (Example.ok "no link, rain") (Example.ok "")
                      (Example.ok "")) []
  = Raise (AttributeError (lit "link")) /\
  Example.update_feed
    (Example.world_of (Example.ok "no title") (Example.ok "")
                      (Example.ok "")) []
  = Raise (AttributeError (lit "title")).
Proof. repeat split; vm_compute; reflexivity. Qed.

(** ** Dates *)


(** C6.  The [pubDate] string is tried first.  When the key is present
    the time tuple plays no part, whatever stands under
    [published_parsed]: if the string does not parse (ValueError) the date
    is the reading of the clock; if it parses, the date is the parsed
    time taken to Amsterdam time, and an OverflowError of that conversion
    is not caught.  Only without a [pubDate] key is the time tuple used
    ([time.mktime], then [datetime.fromtimestamp], whose exceptions are
    not caught), and the clock when there is no tuple. *)
Theorem pubDate_is_tried_first
        (amsterdam_utcoffset : Z -> Z) (mktime : struct_time -> option Z)
        (strptime : str -> str -> option (Z * Z))
        (entry : Entry) (now : Z) :
  let dt := published_dt amsterdam_utcoffset mktime strptime in
  match e_pubDate entry with
  | Some s =>
      (forall pp, dt (with_published_parsed entry pp) now = dt entry now) /\
      (strptime s pubDate_format = None -> dt entry now = Ok (utcnow now)) /\
      (forall wl off,
          strptime s pubDate_format = Some (wl, off) ->
          dt entry now =
          if representable (wl - off)
             && representable (wl - off + amsterdam_utcoffset (wl - off))
          then Ok (fromtimestamp amsterdam_utcoffset (wl - off))
          else Raise OverflowError)
  | None =>
      dt entry now =
      match e_published_parsed entry with
      | Some (Some t) =>
          match mktime t with
          | None => Raise OverflowError
          | Some instant =>
              fromtimestamp_amsterdam amsterdam_utcoffset instant
          end
      | _ => Ok (utcnow now)
      end
  end.
Proof.
  intros dt. unfold dt, published_dt.
  destruct (e_pubDate entry) as [s|] eqn:E.
  - repeat split.
    + intros pp. simpl. now rewrite E.
    + intros H. now rewrite H.
    + intros wl off H. rewrite H. unfold astimezone_amsterdam.
      now destruct (representable (wl - off)
                    && representable (wl - off
                                      + amsterdam_utcoffset (wl - off))).
  - destruct (e_published_parsed entry) as [[t|]|]; try reflexivity.
    unfold time_mktime. now destruct (mktime t).
Qed.

(** An entry whose [pubDate] does not parse and whose time tuple is
    valid gets the clock reading. *)
Lemma pubDate_is_tried_first_witness :
  published_dt Example.amsterdam_utcoffset Example.mktime Example.strptime
               Example.bad_pubDate Example.noon
  = Ok (utcnow Example.noon).
Proof.
  apply (pubDate_is_tried_first
           Example.amsterdam_utcoffset Example.mktime Example.strptime
           Example.bad_pubDate Example.noon).
  reflexivity.
Defined.

(** C3 at an entry without date fields.  The stored date is the reading
    of the UTC clock with no time zone attached; the current time in the
    reference time zone, which line 96 takes for [last_reload], is another
    value: an hour later on the clock face in winter, and aware. *)
Theorem fallback_date_is_naive_utc :
  List.map published
    (table_after []
       (Example.update_feed
          (Example.world_of (Example.ok "bare") (Example.ok "")
                            (Example.ok "")) []))
  = [Some (mkDatetime Example.noon None)] /\
  fromtimestamp Example.amsterdam_utcoffset Example.noon
  = mkDatetime (Example.noon + 3600 * Example.usec) (Some Amsterdam).
Proof. split; vm_compute; reflexivity. Qed.

(** ** Ordering by [published], descending *)


Lemma key_lt_trans (x y z : option Z) :
  key_lt x y = true -> key_lt y z = true -> key_lt x z = true.
Proof.
  destruct x, y, z; simpl; try congruence.
  rewrite !Z.ltb_lt. lia.
Qed.

Lemma key_lt_total (x y : option Z) :
  key_lt x y = false -> key_lt y x = true \/ x = y.
Proof.
  destruct x as [a|], y as [b|]; simpl; try (intros; auto; congruence).
  rewrite Z.ltb_ge, Z.ltb_lt. intros H.
  destruct (Z.eq_dec a b); [right; congruence | left; lia].
Qed.

Lemma key_lt_eq_l (x y z : option Z) :
  x = y -> key_lt z y = true -> key_lt z x = true.
Proof. now intros ->. Qed.

Lemma before_key (a b c : Article) :
  before b c -> key_lt (sort_key b) (sort_key a) = true ->
  key_lt (sort_key c) (sort_key a) = true.
Proof.
  intros [H|[H _]] Hba.
  - eapply key_lt_trans; eassumption.
  - now rewrite <- H.
Qed.

Lemma insert_desc_perm (a : Article) (l : list Article) :
  Permutation (a :: l) (insert_desc a l).
Proof.
  induction l as [|b l IH]; simpl; [reflexivity|].
  destruct (key_lt (sort_key b) (sort_key a)); [reflexivity|].
  rewrite perm_swap. now constructor.
Qed.

Lemma insert_desc_sorted (a : Article) (l : list Article) :
  StronglySorted before l ->
  Forall (fun b => id b < id a) l ->
  StronglySorted before (insert_desc a l).
Proof.
  induction l as [|b l IH]; simpl; intros Hs Hid.
  - repeat constructor.
  - inversion Hs as [|x xs Hs' Hb]; subst.
    inversion Hid as [|x xs Hba Hid']; subst.
    destruct (key_lt (sort_key b) (sort_key a)) eqn:E.
    + constructor; [exact Hs|].
      constructor; [now left|].
      rewrite Forall_forall in *. intros c Hc. left.
      eapply before_key; [apply Hb; exact Hc | exact E].
    + constructor; [now apply IH|].
      rewrite Forall_forall. intros c Hc.
      apply (Permutation_in _ (Permutation_sym (insert_desc_perm a l))) in Hc.
      destruct Hc as [<-|Hc].
      * destruct (key_lt_total _ _ E) as [H|H]; [now left|].
        right. split; [congruence | exact Hba].
      * rewrite Forall_forall in Hb. now apply Hb.
Qed.

Lemma fold_insert_desc (todo : list Article) :
  forall index,
    StronglySorted before index ->
    ids_ascend todo ->
    (forall b a, In b index -> In a todo -> id b < id a) ->
    let result := fold_left (fun index a => insert_desc a index) todo index in
    StronglySorted before result /\ Permutation (index ++ todo) result.
Proof.
  induction todo as [|a todo IH]; simpl; intros index Hs Hasc Hlt.
  - split; [exact Hs | now rewrite app_nil_r].
  - inversion Hasc as [|x xs Hasc' Ha]; subst.
    destruct (IH (insert_desc a index)) as [H1 H2].
    + apply insert_desc_sorted; [exact Hs|].
      rewrite Forall_forall. intros b Hb. apply Hlt; auto.
    + exact Hasc'.
    + intros b c Hb Hc.
      apply (Permutation_in _ (Permutation_sym (insert_desc_perm a index)))
        in Hb.
      destruct Hb as [<-|Hb].
      * rewrite Forall_forall in Ha. now apply Ha.
      * apply Hlt; auto.
    + split; [exact H1|].
      rewrite <- H2, <- insert_desc_perm. simpl.
      symmetry. apply Permutation_middle.
Qed.

Lemma order_by_published_desc_perm (rows : list Article) :
  Permutation rows (order_by_published_desc rows).
Proof.
  unfold order_by_published_desc.
  assert (G : forall todo index,
             Permutation (index ++ todo)
               (fold_left (fun index a => insert_desc a index) todo index)).
  { induction todo as [|a todo IH]; simpl; intros index.
    - now rewrite app_nil_r.
    - rewrite <- IH, <- insert_desc_perm. simpl.
      symmetry. apply Permutation_middle. }
  apply (G rows []).
Qed.

Lemma order_by_published_desc_sorted (rows : list Article) :
  ids_ascend rows -> StronglySorted before (order_by_published_desc rows).
Proof.
  intros H. unfold order_by_published_desc.
  apply (fold_insert_desc rows []); [constructor | exact H|].
  intros b a [].
Qed.

Lemma StronglySorted_firstn {A : Type} (R : A -> A -> Prop) (n : nat) :
  forall l, StronglySorted R l -> StronglySorted R (firstn n l).
Proof.
  induction n as [|n IH]; intros [|a l] H; simpl; try constructor.
  - inversion H; subst. now apply IH.
  - inversion H as [|x xs _ Ha]; subst.
    rewrite Forall_forall in *. intros b Hb. apply Ha.
    rewrite <- (firstn_skipn n l). apply in_or_app. now left.
Qed.

Lemma StronglySorted_filter {A : Type} (R : A -> A -> Prop) (f : A -> bool) :
  forall l, StronglySorted R l -> StronglySorted R (List.filter f l).
Proof.
  induction l as [|a l IH]; simpl; intros H; [constructor|].
  inversion H as [|x xs Hs Ha]; subst.
  destruct (f a); [|now apply IH].
  constructor; [now apply IH|].
  rewrite Forall_forall in *. intros b Hb. apply Ha.
  apply filter_In in Hb. tauto.
Qed.

(** C5.  In a table whose ids ascend, [recent n] is the first [n]
    articles of the table put in order: later dates first, articles
    with the same date (or with none) by ascending id, articles without
    a date last; it has [min n total] articles. *)
Theorem recent_is_sorted_and_limited (n : nat) (rows : list Article) :
  ids_ascend rows ->
  exists sorted,
    Permutation rows sorted /\
    StronglySorted before sorted /\
    recent n rows = firstn n sorted /\
    StronglySorted before (recent n rows) /\
    List.length (recent n rows) = Nat.min n (List.length rows).
Proof.
  intros H. exists (order_by_published_desc rows).
  pose proof (order_by_published_desc_perm rows) as P.
  pose proof (order_by_published_desc_sorted rows H) as S.
  repeat split; auto.
  - unfold recent. now apply StronglySorted_firstn.
  - unfold recent. rewrite length_firstn.
    now rewrite (Permutation_length P).
Qed.

(** Four rows: two with the same date, one without a date. *)
Lemma recent_is_sorted_and_limited_witness :
  let row i d := mkArticle i (lit "t") [N.of_nat (Z.to_nat i)] d None in
  let rows := [row 1 (Some (mkDatetime 50 None)); row 2 None;
               row 3 (Some (mkDatetime 70 None));
               row 4 (Some (mkDatetime 50 (Some Amsterdam)))] in
  List.map id (recent 3 rows) = [3; 1; 4] /\
  exists sorted,
    Permutation rows sorted /\
    StronglySorted before sorted /\
    recent 3 rows = firstn 3 sorted /\
    StronglySorted before (recent 3 rows) /\
    List.length (recent 3 rows) = Nat.min 3 (List.length rows).
Proof.
  intros row rows. split; [reflexivity|].
  apply (recent_is_sorted_and_limited 3 rows).
  unfold ids_ascend, rows, row.
  repeat (constructor; simpl; try lia).
Defined.

(** the ids of the tables that passes build do ascend *)
Lemma next_id_above (rows : list Article) :
  Forall (fun b => id b < next_id rows) rows.
Proof.
  unfold next_id. induction rows as [|a rows IH]; cbn [List.map fold_right];
    constructor.
  - lia.
  - eapply Forall_impl; [|exact IH]. cbv beta. intros b. lia.
Qed.

Lemma StronglySorted_snoc {A : Type} (R : A -> A -> Prop) (a : A) :
  forall l, StronglySorted R l -> Forall (fun b => R b a) l ->
            StronglySorted R (l ++ [a]).
Proof.
  induction l as [|b l IH]; simpl; intros Hs Ha.
  - repeat constructor.
  - inversion Hs as [|x xs Hs' Hb]; subst.
    inversion Ha as [|x xs Hba Ha']; subst.
    constructor; [now apply IH|].
    apply Forall_app. split; [exact Hb | now repeat constructor].
Qed.

Lemma flush_ids_ascend (pending : list NewArticle) :
  forall rows rows',
    flush rows pending = Ok rows' -> ids_ascend rows -> ids_ascend rows'.
Proof.
  induction pending as [|n rest IH]; simpl; intros rows rows' H Hasc.
  - now injection H as <-.
  - destruct (insert_row rows n) as [r1|] eqn:E; simpl in H; [|discriminate].
    apply insert_row_inv in E. destruct E as [_ ->].
    apply (IH _ _ H). apply StronglySorted_snoc; [exact Hasc|].
    apply next_id_above.
Qed.

Lemma run_passes_ids_ascend
      (amsterdam_utcoffset : Z -> Z) (mktime : struct_time -> option Z)
      (strptime : str -> str -> option (Z * Z))
      (feedparser_parse : str -> list Entry) (ws : list world) :
  forall db,
    ids_ascend db ->
    ids_ascend (run_passes amsterdam_utcoffset mktime strptime
                           feedparser_parse ws db).
Proof.
  assert (Hentry : forall w s e s',
             process_entry amsterdam_utcoffset mktime strptime w s e = Ok s' ->
             ids_ascend (rows s) -> ids_ascend (rows s')).
  { intros w s e s'. unfold process_entry, query_first_by_link.
    destruct (e_link e) as [l|]; simpl; [|discriminate].
    destruct (flush (rows s) (pending s)) as [r|] eqn:F; simpl; [|discriminate].
    intros H Hasc. apply (flush_ids_ascend _ _ _ F) in Hasc.
    destruct (find (link_is l) r).
    - now injection H as <-.
    - destruct (published_dt _ _ _ e _); simpl in H; [|discriminate].
      destruct (e_title e); simpl in H; [|discriminate].
      now injection H as <-. }
  assert (Hfeed : forall w s u s',
             process_feed amsterdam_utcoffset mktime strptime feedparser_parse
                          w s u = Ok s' ->
             ids_ascend (rows s) -> ids_ascend (rows s')).
  { intros w s u s'. rewrite process_feed_fold.
    destruct (get_feed feedparser_parse w u) as [es|]; simpl; [|discriminate].
    apply (foldM_preserves
             (process_entry amsterdam_utcoffset mktime strptime w)
             (fun a b => ids_ascend (rows a) -> ids_ascend (rows b)));
      eauto. }
  induction ws as [|w ws IH]; simpl; intros db Hasc; [exact Hasc|].
  apply IH.
  destruct (update_feed _ _ _ _ w db) as [c|] eqn:H; simpl; [|exact Hasc].
  unfold update_feed in H.
  destruct (foldM _ _ RSS_FEEDS) as [s|] eqn:F; simpl in H; [|discriminate].
  destruct (flush (rows s) (pending s)) as [r|] eqn:E; simpl in H;
    [|discriminate].
  injection H as <-. simpl.
  apply (flush_ids_ascend _ _ _ E).
  apply (foldM_preserves
           (process_feed amsterdam_utcoffset mktime strptime feedparser_parse w)
           (fun a b => ids_ascend (rows a) -> ids_ascend (rows b)))
    in F; eauto.
Qed.

(** ** Search *)

Local Open Scope N_scope.



















Local Close Scope N_scope.




(** ** A query parameter of white space *)

Lemma lstrip_spaces (s : str) : forallb is_space s = true -> lstrip s = [].
Proof.
  induction s as [|c s IH]; simpl; [reflexivity|].
  intros H. apply andb_true_iff in H. destruct H as [Hc Hs].
  rewrite Hc. now apply IH.
Qed.

Lemma strip_spaces (s : str) : forallb is_space s = true -> strip s = [].
Proof.
  intros H. unfold strip. now rewrite (lstrip_spaces s H).
Qed.

(** C10.  Without [q], or with a [q] of nothing but white space, the
    route answers as for a request without a search term: with the ten
    most recent articles, none filtered out. *)
Theorem blank_query_is_no_query (strftime : datetime -> str -> str)
        (q : option str) (rows : list Article) :
  forallb is_space (args_get_q q) = true ->
  rss_articles q rows = recent 10 rows /\
  rss_feed strftime q rows = rss_feed strftime None rows.
Proof.
  intros H.
  assert (E : rss_articles q rows = recent 10 rows).
  { unfold rss_articles. now rewrite (strip_spaces _ H). }
  split; [exact E|]. unfold rss_feed. now rewrite E.
Qed.

(** [q] is a blank, a tab and a no-break space; the table holds two
    articles that do not contain them. *)
Lemma blank_query_is_no_query_witness :
  let rows := [mkArticle 1 (lit "Storm") (lit "http://x/1")
                         (Some (mkDatetime 50 None)) (Some []);
               mkArticle 2 (lit "Rain") (lit "http://x/2")
                         (Some (mkDatetime 60 None)) None] in
  let q := Some [32%N; 9%N; 160%N] in
  rss_articles q rows = recent 10 rows /\
  rss_feed Example.strftime q rows = rss_feed Example.strftime None rows.
Proof.
  intros rows q.
  apply (blank_query_is_no_query Example.strftime q rows).
  reflexivity.
Defined.

(** ** The syndication document *)































(** C9 at a table with an article titled [R & D], asked for without a
    term: the route writes the title as it is stored, and the body is
    not a well-formed document.  The same happens with a summary that
    holds the end mark of a CDATA section. *)
Theorem syndication_document_not_well_formed :
  let a := mkArticle 1 (lit "R & D") (lit "http://x/1")
                     (Some (mkDatetime 50 None)) (Some (lit "text")) in
  let b := mkArticle 1 (lit "Brackets") (lit "http://x/2")
                     (Some (mkDatetime 50 None)) (Some (lit "a ]]> b")) in
  rss_feed_checked Example.strftime None [a]
  = Ok (rss_feed Example.strftime None [a]) /\
  well_formed (body (rss_feed Example.strftime None [a])) = false /\
  rss_feed_checked Example.strftime None [b]
  = Ok (rss_feed Example.strftime None [b]) /\
  well_formed (body (rss_feed Example.strftime None [b])) = false.
Proof. intros a b. repeat split; vm_compute; reflexivity. Qed.

(** * Further properties of the pass *)


(** an invariant kept by the steps that return is kept by the fold, and
    an exception of the fold is an exception of a step taken inside it *)
Lemma foldM_invariant {A B : Type} (f : A -> B -> result A)
      (I : A -> Prop) :
  (forall a b a', I a -> f a b = Ok a' -> I a') ->
  forall l a a', I a -> foldM f a l = Ok a' -> I a'.
Proof.
  intros Hstep l. induction l as [|b l IH]; simpl; intros a a' Ha H.
  - now injection H as <-.
  - destruct (f a b) as [a1|] eqn:E; simpl in H; [|discriminate].
    eapply IH; [|exact H]. eapply Hstep; eassumption.
Qed.

Lemma foldM_raise_inv {A B : Type} (f : A -> B -> result A)
      (I : A -> Prop) (P : B -> exn -> Prop) :
  (forall a b a', I a -> f a b = Ok a' -> I a') ->
  (forall a b e, I a -> f a b = Raise e -> P b e) ->
  forall l a e, I a -> foldM f a l = Raise e -> exists b, In b l /\ P b e.
Proof.
  intros Hstep Hraise l.
  induction l as [|b l IH]; simpl; intros a e Ha H; [discriminate|].
  destruct (f a b) as [a1|e1] eqn:E; simpl in H.
  - destruct (IH a1 e (Hstep _ _ _ Ha E) H) as (b' & Hin & Hp).
    exists b'. auto.
  - injection H as <-. exists b. split; [now left | eauto].
Qed.

Section PassFacts.

Variable amsterdam_utcoffset : Z -> Z.
Variable mktime : struct_time -> option Z.
Variable strptime : str -> str -> option (Z * Z).
Variable feedparser_parse : str -> list Entry.

Let entry_step := process_entry amsterdam_utcoffset mktime strptime.
Let feed_step :=
  process_feed amsterdam_utcoffset mktime strptime feedparser_parse.
Let pass :=
  update_feed amsterdam_utcoffset mktime strptime feedparser_parse.
Let date := published_dt amsterdam_utcoffset mktime strptime.

Lemma entry_step_ok (w : world) (s s' : session) (e : Entry) :
  session_ok s -> entry_step w s e = Ok s' -> session_ok s'.
Proof.
  intros (r & Hv & Hnd) H.
  destruct (process_entry_view amsterdam_utcoffset mktime strptime
              feedparser_parse w s s' e r Hv Hnd H)
    as (l & r' & _ & Hv' & Hnd' & _).
  exists r'. auto.
Qed.

(** the exceptions of the date functions *)
Lemma published_dt_raises (e : Entry) (now : Z) (ex : exn) :
  date e now = Raise ex -> ex = OverflowError \/ ex = ValueError.
Proof.
  unfold date, published_dt.
  destruct (e_pubDate e) as [s|].
  - destruct (strptime s pubDate_format) as [[wl off]|]; simpl;
      [|discriminate].
    unfold astimezone_amsterdam.
    destruct (representable (wl - off) && _); simpl; [discriminate|].
    intros H. injection H as <-. now left.
  - destruct (e_published_parsed e) as [[t|]|]; try discriminate.
    unfold time_mktime, fromtimestamp_amsterdam.
    destruct (mktime t) as [i|]; simpl.
    + destruct (negb (representable i)).
      * intros H. injection H as <-. now right.
      * destruct (negb (representable (i + amsterdam_utcoffset i)));
          [|discriminate].
        intros H. injection H as <-. now left.
    + intros H. injection H as <-. now left.
Qed.

Lemma entry_step_raise (w : world) (s : session) (e : Entry) (ex : exn) :
  session_ok s -> entry_step w s e = Raise ex ->
  (e_link e = None /\ ex = AttributeError (lit "link")) \/
  (e_title e = None /\ ex = AttributeError (lit "title")) \/
  (date e (clock w (tick s)) = Raise ex).
Proof.
  intros (r & Hv & _) H.
  pose proof (process_entry_cases amsterdam_utcoffset mktime strptime
                w s e r Hv) as C.
  fold entry_step in C.
  destruct (e_link e) as [l|].
  - destruct (existsb (link_is l) r); [congruence|].
    fold date in C.
    destruct (date e (clock w (tick s))) as [d|ex'];
      [|right; right; congruence].
    destruct (e_title e) as [t|]; [congruence|].
    right. left. split; [reflexivity | congruence].
  - left. split; [reflexivity | congruence].
Qed.

Lemma feed_step_ok (w : world) (s s' : session) (url : str) :
  session_ok s -> feed_step w s url = Ok s' -> session_ok s'.
Proof.
  intros Hs H. unfold feed_step in H. rewrite process_feed_fold in H.
  destruct (get_feed feedparser_parse w url) as [es|]; simpl in H;
    [|discriminate].
  apply (foldM_invariant (entry_step w) session_ok) with (l := es) (a := s);
    auto.
  intros a b a'. apply entry_step_ok.
Qed.

(** where the exception of a pass comes from *)
Lemma pass_raise (w : world) (db : list Article) (ex : exn) :
  NoDup (links db) ->
  pass w db = Raise ex ->
  exists url,
    In url RSS_FEEDS /\
    (requests_get w url = Raise ex \/
     exists entries e,
       get_feed feedparser_parse w url = Ok entries /\ In e entries /\
       ((e_link e = None /\ ex = AttributeError (lit "link")) \/
        (e_title e = None /\ ex = AttributeError (lit "title")) \/
        (exists now, date e now = Raise ex))).
Proof.
  intros Hnd H. unfold pass, update_feed in H.
  assert (H0 : session_ok (mkSession db [] 0)) by (exists db; auto).
  destruct (foldM _ _ RSS_FEEDS) as [s|e0] eqn:F; simpl in H.
  - apply (foldM_invariant (feed_step w) session_ok) in F; auto.
    + destruct F as (r & Hv & _). unfold view in Hv. rewrite Hv in H.
      discriminate.
    + intros a b a'. apply feed_step_ok.
  - injection H as <-.
    apply (foldM_raise_inv (feed_step w) session_ok
             (fun url ex =>
                requests_get w url = Raise ex \/
                exists entries e,
                  get_feed feedparser_parse w url = Ok entries /\
                  In e entries /\
                  ((e_link e = None /\ ex = AttributeError (lit "link")) \/
                   (e_title e = None /\ ex = AttributeError (lit "title")) \/
                   (exists now, date e now = Raise ex))))
      in F; auto.
    + intros a b a'. apply feed_step_ok.
    + intros a url e Ha Hr. unfold feed_step in Hr.
      rewrite process_feed_fold in Hr.
      destruct (get_feed feedparser_parse w url) as [es|e1] eqn:G;
        simpl in Hr.
      * right. exists es.
        apply (foldM_raise_inv (entry_step w) session_ok
                 (fun e ex =>
                    (e_link e = None /\ ex = AttributeError (lit "link")) \/
                    (e_title e = None /\ ex = AttributeError (lit "title"))
                    \/ (exists now, date e now = Raise ex)))
          in Hr; auto.
        -- destruct Hr as (e' & Hin & Hp). exists e'. auto.
        -- intros x y z. apply entry_step_ok.
        -- intros x y z Hx Hz.
           destruct (entry_step_raise w x y z Hx Hz) as [?|[?|?]]; eauto.
      * left. injection Hr as <-. unfold get_feed in G.
        destruct (requests_get w url); simpl in G; congruence.
Qed.

(** X3.  The flushes and the commit of a pass never fail: on a table
    with distinct links, and unless [requests.get] itself raises it, a
    pass does not end with IntegrityError.  The lookup of line 67 keeps
    the UNIQUE constraint on [link] from being violated, also when a link
    comes twice in one pass. *)
Theorem exceptions_of_a_pass (w : world) (db : list Article) :
  NoDup (links db) ->
  (forall url, In url RSS_FEEDS ->
               requests_get w url <> Raise IntegrityError) ->
  pass w db <> Raise IntegrityError.
Proof.
  intros Hnd Hget H.
  destruct (pass_raise w db IntegrityError Hnd H) as (url & Hurl & Hc).
  destruct Hc as [Hc|(es & e & _ & _ & [[_ Hc]|[[_ Hc]|[now Hc]]])];
    try discriminate; [now apply (Hget url Hurl)|].
  destruct (published_dt_raises e now IntegrityError Hc); discriminate.
Qed.

(** entries whose links are all in the view are skipped one by one *)
Lemma entries_known (w : world) (entries : list Entry) (r : list Article) :
  (forall e, In e entries -> exists l, e_link e = Some l /\ In l (links r)) ->
  forall s,
    view s = Ok r ->
    exists s', foldM (entry_step w) s entries = Ok s' /\ view s' = Ok r.
Proof.
  induction entries as [|e es IH]; simpl; intros Hall s Hv.
  - exists s. auto.
  - destruct (Hall e (or_introl eq_refl)) as (l & Hl & Hin).
    pose proof (process_entry_cases amsterdam_utcoffset mktime strptime
                  w s e r Hv) as C.
    fold entry_step in C. rewrite Hl in C.
    apply existsb_link_is in Hin. rewrite Hin in C. rewrite C. simpl.
    apply IH; [|reflexivity]. intros e0 H0. apply Hall. now right.
Qed.

Lemma feeds_known (w : world) (urls : list str) (r : list Article) :
  (forall url, In url urls ->
     exists entries,
       get_feed feedparser_parse w url = Ok entries /\
       forall e, In e entries ->
                 exists l, e_link e = Some l /\ In l (links r)) ->
  forall s,
    view s = Ok r ->
    exists s', foldM (feed_step w) s urls = Ok s' /\ view s' = Ok r.
Proof.
  induction urls as [|u us IH]; simpl; intros Hall s Hv.
  - exists s. auto.
  - destruct (Hall u (or_introl eq_refl)) as (es & Hget & Hes).
    destruct (entries_known w es r Hes s Hv) as (s1 & E & Hv1).
    unfold feed_step at 1. rewrite process_feed_fold, Hget. simpl.
    fold entry_step. rewrite E. simpl.
    apply IH; [|exact Hv1]. intros u0 H0. apply Hall. now right.
Qed.

Lemma pass_known (w : world) (db : list Article) :
  (forall url, In url RSS_FEEDS ->
     exists entries,
       get_feed feedparser_parse w url = Ok entries /\
       forall e, In e entries ->
                 exists l, e_link e = Some l /\ In l (links db)) ->
  exists c, pass w db = Ok c /\ table c = db.
Proof.
  intros Hall.
  destruct (feeds_known w RSS_FEEDS db Hall (mkSession db [] 0) eq_refl)
    as (s' & F & Hv).
  unfold pass, update_feed. fold feed_step. rewrite F. simpl.
  unfold view in Hv. rewrite Hv. simpl. eexists. split; reflexivity.
Qed.

(** X1.  When every feed answers and every entry carries a link that is
    already stored, the pass commits and the table is the same as before:
    a known entry is skipped before its title and dates are looked at, so
    it may lack them. *)
Theorem known_links_change_nothing (w : world) (db : list Article) :
  (forall url, In url RSS_FEEDS ->
     exists entries,
       get_feed feedparser_parse w url = Ok entries /\
       forall e, In e entries ->
                 exists l, e_link e = Some l /\ In l (links db)) ->
  exists c, pass w db = Ok c /\ table c = db.
Proof. apply pass_known. Qed.

(** X2.  A pass that commits, run again on its own result against feeds
    that answer the same, commits again and stores nothing new. *)
Theorem second_pass_adds_nothing (w w' : world) (db : list Article)
        (c : committed) :
  NoDup (links db) ->
  pass w db = Ok c ->
  (forall url, requests_get w' url = requests_get w url) ->
  exists c', pass w' (table c) = Ok c' /\ table c' = table c.
Proof.
  intros Hnd Hc Hsame. apply pass_known.
  destruct (update_feed_commits amsterdam_utcoffset mktime strptime
              feedparser_parse w db c Hnd Hc) as (_ & _ & Hall).
  intros url Hurl. destruct (Hall url Hurl) as (es & Hget & Hes).
  exists es. split; [|exact Hes].
  unfold get_feed in *. now rewrite Hsame.
Qed.


Lemma entries_provenance (w : world) (entries : list Entry) :
  forall (s s' : session) (r : list Article),
    view s = Ok r -> NoDup (links r) ->
    foldM (entry_step w) s entries = Ok s' ->
    exists r',
      view s' = Ok r' /\ NoDup (links r') /\
      forall a, In a r' ->
                In a r \/
                exists e, In e entries /\
                          stored_from amsterdam_utcoffset mktime strptime
                                      w e a.
Proof.
  induction entries as [|e es IH]; simpl; intros s s' r Hv Hnd H.
  - injection H as <-. exists r. auto.
  - destruct (entry_step w s e) as [s1|] eqn:E; simpl in H; [|discriminate].
    destruct (process_entry_view amsterdam_utcoffset mktime strptime
                feedparser_parse w s s1 e r Hv Hnd E)
      as (l & r1 & Hl & Hv1 & Hnd1 & _ & _ & Hr1).
    destruct (IH s1 s' r1 Hv1 Hnd1 H) as (r' & Hv' & Hnd' & Hall).
    exists r'. repeat split; auto.
    intros a Ha. destruct (Hall a Ha) as [Hin|(e0 & He0 & Hfrom)].
    + destruct Hr1 as [->|(t & d & Ht & _ & Hd & ->)]; [now left|].
      apply in_app_or in Hin. destruct Hin as [Hin|[<-|[]]]; [now left|].
      right. exists e. split; [now left|].
      unfold stored_from, row_of. simpl. eauto 10.
    + right. exists e0. auto.
Qed.

Lemma feeds_provenance (w : world) (urls : list str) :
  forall (s s' : session) (r : list Article),
    view s = Ok r -> NoDup (links r) ->
    foldM (feed_step w) s urls = Ok s' ->
    exists r',
      view s' = Ok r' /\ NoDup (links r') /\
      forall a, In a r' ->
                In a r \/
                exists url entries e,
                  In url urls /\
                  get_feed feedparser_parse w url = Ok entries /\
                  In e entries /\
                  stored_from amsterdam_utcoffset mktime strptime w e a.
Proof.
  induction urls as [|u us IH]; simpl; intros s s' r Hv Hnd H.
  - injection H as <-. exists r. auto.
  - destruct (feed_step w s u) as [s1|] eqn:E; simpl in H; [|discriminate].
    unfold feed_step in E. rewrite process_feed_fold in E.
    destruct (get_feed feedparser_parse w u) as [es|] eqn:G; simpl in E;
      [|discriminate].
    destruct (entries_provenance w es s s1 r Hv Hnd E)
      as (r1 & Hv1 & Hnd1 & Hall1).
    destruct (IH s1 s' r1 Hv1 Hnd1 H) as (r' & Hv' & Hnd' & Hall).
    exists r'. repeat split; auto.
    intros a Ha. destruct (Hall a Ha) as [Hin|(u0 & es0 & e0 & Hu & H0)].
    + destruct (Hall1 a Hin) as [Hr|(e & He & Hfrom)]; [now left|].
      right. exists u, es, e. auto.
    + right. exists u0, es0, e0. tauto.
Qed.

Lemma pass_provenance (w : world) (db : list Article)
      (c : committed) (a : Article) :
  NoDup (links db) ->
  pass w db = Ok c ->
  In a (table c) ->
  In a db \/
  exists url entries e,
    In url RSS_FEEDS /\
    get_feed feedparser_parse w url = Ok entries /\
    In e entries /\
    stored_from amsterdam_utcoffset mktime strptime w e a.
Proof.
  intros Hnd H Ha. unfold pass, update_feed in H.
  destruct (foldM _ _ RSS_FEEDS) as [s|] eqn:F; simpl in H; [|discriminate].
  destruct (feeds_provenance w RSS_FEEDS (mkSession db [] 0) s db
              eq_refl Hnd F) as (r' & Hv' & _ & Hall).
  unfold view in Hv'. rewrite Hv' in H. simpl in H. injection H as <-.
  now apply Hall.
Qed.

(** X5.  Every article in the table after a pass that commits was in
    the table before, or is made of an entry of one of the feeds: it has
    the title and the link of the entry, its summary (or else its
    description, or else the empty text) and its normalised date. *)
Theorem stored_articles_come_from_entries (w : world) (db : list Article)
        (c : committed) (a : Article) :
  NoDup (links db) ->
  pass w db = Ok c ->
  In a (table c) ->
  In a db \/
  exists url entries e,
    In url RSS_FEEDS /\
    get_feed feedparser_parse w url = Ok entries /\
    In e entries /\
    stored_from amsterdam_utcoffset mktime strptime w e a.
Proof. apply pass_provenance. Qed.

Lemma foldM_app_ok {A B : Type} (f : A -> B -> result A) (l1 l2 : list B)
      (a a' : A) :
  foldM f a (l1 ++ l2) = Ok a' ->
  exists a1, foldM f a l1 = Ok a1 /\ foldM f a1 l2 = Ok a'.
Proof.
  rewrite foldM_app. destruct (foldM f a l1) as [a1|]; simpl; [|discriminate].
  intros H. exists a1. auto.
Qed.

(** entries that do not carry the link [l] leave it absent *)
Lemma entries_keep_absent (w : world) (entries : list Entry) (l : str)
      (s s' : session) (r : list Article) :
  view s = Ok r -> NoDup (links r) -> ~ In l (links r) ->
  (forall e, In e entries -> e_link e <> Some l) ->
  foldM (entry_step w) s entries = Ok s' ->
  exists r', view s' = Ok r' /\ NoDup (links r') /\ ~ In l (links r').
Proof.
  intros Hv Hnd Hl Hall H.
  destruct (entries_provenance w entries s s' r Hv Hnd H)
    as (r' & Hv' & Hnd' & Hfrom).
  exists r'. repeat split; auto.
  unfold links. rewrite in_map_iff. intros (a & Ha & Hin).
  destruct (Hfrom a Hin) as [Hr|(e & He & (Hel & _))].
  - apply Hl. unfold links. rewrite in_map_iff. eauto.
  - apply (Hall e He). congruence.
Qed.

Lemma feeds_keep_absent (w : world) (urls : list str) (l : str)
      (s s' : session) (r : list Article) :
  view s = Ok r -> NoDup (links r) -> ~ In l (links r) ->
  (forall url entries e,
     In url urls -> get_feed feedparser_parse w url = Ok entries ->
     In e entries -> e_link e <> Some l) ->
  foldM (feed_step w) s urls = Ok s' ->
  exists r', view s' = Ok r' /\ NoDup (links r') /\ ~ In l (links r').
Proof.
  intros Hv Hnd Hl Hall H.
  destruct (feeds_provenance w urls s s' r Hv Hnd H)
    as (r' & Hv' & Hnd' & Hfrom).
  exists r'. repeat split; auto.
  unfold links. rewrite in_map_iff. intros (a & Ha & Hin).
  destruct (Hfrom a Hin) as [Hr|(u & es & e & Hu & Hget & He & (Hel & _))].
  - apply Hl. unfold links. rewrite in_map_iff. eauto.
  - apply (Hall u es e Hu Hget He). congruence.
Qed.

Lemma pass_first_entry (w : world) (db : list Article) (c : committed)
        (earlier later : list str) (url : str)
        (pre post : list Entry) (e1 : Entry) (l : str) :
  NoDup (links db) -> ~ In l (links db) ->
  pass w db = Ok c ->
  RSS_FEEDS = earlier ++ url :: later ->
  (forall u entries e,
     In u earlier -> get_feed feedparser_parse w u = Ok entries ->
     In e entries -> e_link e <> Some l) ->
  get_feed feedparser_parse w url = Ok (pre ++ e1 :: post) ->
  (forall e, In e pre -> e_link e <> Some l) ->
  e_link e1 = Some l ->
  exists a,
    In a (table c) /\ link a = l /\
    stored_from amsterdam_utcoffset mktime strptime w e1 a /\
    count_link l (table c) = 1%nat.
Proof.
  intros Hnd Hl H Hfeeds Hearlier Hget Hpre Hl1.
  unfold pass, update_feed in H. rewrite Hfeeds in H.
  destruct (foldM _ _ (earlier ++ url :: later)) as [s|] eqn:F; simpl in H;
    [|discriminate].
  destruct (flush (rows s) (pending s)) as [rf|] eqn:Hflush; simpl in H;
    [|discriminate].
  injection H as <-. simpl.
  apply foldM_app_ok in F. destruct F as (s0 & F0 & F). simpl in F.
  fold feed_step in F0, F.
  destruct (feeds_keep_absent w earlier l (mkSession db [] 0) s0 db
              eq_refl Hnd Hl Hearlier F0) as (r0 & Hv0 & Hnd0 & Hl0).
  destruct (feed_step w s0 url) as [s3|] eqn:Furl; simpl in F; [|discriminate].
  unfold feed_step in Furl. rewrite process_feed_fold, Hget in Furl.
  simpl in Furl. apply foldM_app_ok in Furl.
  destruct Furl as (s1 & Fpre & Frest). simpl in Frest.
  fold entry_step in Fpre, Frest.
  destruct (entries_keep_absent w pre l s0 s1 r0 Hv0 Hnd0 Hl0 Hpre Fpre)
    as (r1 & Hv1 & Hnd1 & Hl1').
  destruct (entry_step w s1 e1) as [s2|] eqn:E1; simpl in Frest;
    [|discriminate].
  destruct (process_entry_view amsterdam_utcoffset mktime strptime
              feedparser_parse w s1 s2 e1 r1 Hv1 Hnd1 E1)
    as (l' & r2 & Hl' & Hv2 & Hnd2 & Hin2 & _ & Hr2).
  assert (l' = l) by congruence. subst l'.
  destruct Hr2 as [->|(t & d & Ht & _ & Hd & ->)]; [tauto|].
  destruct (entries_view amsterdam_utcoffset mktime strptime
              feedparser_parse w post s2 s3 _ Hv2 Hnd2 Frest)
    as (r3 & Hv3 & Hnd3 & Hext3 & _).
  destruct (feeds_view amsterdam_utcoffset mktime strptime
              feedparser_parse w later s3 s r3 Hv3 Hnd3 F)
    as (r4 & Hv4 & Hnd4 & Hext4 & _).
  unfold view in Hv4. rewrite Hv4 in Hflush. injection Hflush as <-.
  assert (Hext : extends (r1 ++ [row_of r1 e1 t l d]) r4)
    by (eapply extends_trans; eassumption).
  exists (row_of r1 e1 t l d).
  split; [|split; [reflexivity|split]].
  - destruct Hext as [added ->]. apply in_or_app. left.
    apply in_or_app. right. now left.
  - unfold stored_from, row_of. simpl. eauto 10.
  - apply count_link_once; [exact Hnd4|].
    eapply extends_links; [exact Hext|]. exact Hin2.
Qed.

(** X6.  The first entry wins.  Let [l] be a link that is not stored,
    and let [e1] be the first entry that carries it, in the order of the
    feeds and of their entries.  After a pass that commits, the one
    article with link [l] is made of [e1]; later entries with the same
    link, in the same feed or in later feeds, do not replace it. *)
Theorem first_entry_wins (w : world) (db : list Article) (c : committed)
        (earlier later : list str) (url : str)
        (pre post : list Entry) (e1 : Entry) (l : str) :
  NoDup (links db) -> ~ In l (links db) ->
  pass w db = Ok c ->
  RSS_FEEDS = earlier ++ url :: later ->
  (forall u entries e,
     In u earlier -> get_feed feedparser_parse w u = Ok entries ->
     In e entries -> e_link e <> Some l) ->
  get_feed feedparser_parse w url = Ok (pre ++ e1 :: post) ->
  (forall e, In e pre -> e_link e <> Some l) ->
  e_link e1 = Some l ->
  exists a,
    In a (table c) /\ link a = l /\
    stored_from amsterdam_utcoffset mktime strptime w e1 a /\
    count_link l (table c) = 1%nat.
Proof. apply pass_first_entry. Qed.

Lemma flush_populated (pending : list NewArticle) :
  forall rows rows',
    flush rows pending = Ok rows' ->
    Forall populated rows -> Forall populated_new pending ->
    Forall populated rows'.
Proof.
  induction pending as [|n rest IH]; simpl; intros rows rows' H Hr Hp.
  - now injection H as <-.
  - destruct (insert_row rows n) as [r1|] eqn:E; simpl in H; [|discriminate].
    apply insert_row_inv in E. destruct E as [_ ->].
    inversion Hp as [|x xs Hn Hrest]; subst.
    apply (IH _ _ H); [|exact Hrest].
    apply Forall_app. split; [exact Hr|]. repeat constructor; apply Hn.
Qed.

Lemma entry_step_populated (w : world) (s s' : session) (e : Entry) :
  Forall populated (rows s) /\ Forall populated_new (pending s) ->
  entry_step w s e = Ok s' ->
  Forall populated (rows s') /\ Forall populated_new (pending s').
Proof.
  intros [Hr Hp]. unfold entry_step, process_entry, query_first_by_link.
  destruct (e_link e) as [l|]; simpl; [|discriminate].
  destruct (flush (rows s) (pending s)) as [r|] eqn:F; simpl; [|discriminate].
  pose proof (flush_populated _ _ _ F Hr Hp) as Hr'.
  destruct (find (link_is l) r).
  - intros H. injection H as <-. simpl. auto.
  - destruct (published_dt _ _ _ e _); simpl; [|discriminate].
    destruct (e_title e); simpl; [|discriminate].
    intros H. injection H as <-. simpl. split; [exact Hr'|].
    repeat constructor; simpl; discriminate.
Qed.

Lemma pass_populated (w : world) (db : list Article) :
  Forall populated db -> Forall populated (table_after db (pass w db)).
Proof.
  intros Hdb. destruct (pass w db) as [c|] eqn:H; simpl; [|exact Hdb].
  unfold pass, update_feed in H.
  destruct (foldM _ _ RSS_FEEDS) as [s|] eqn:F; simpl in H; [|discriminate].
  destruct (flush (rows s) (pending s)) as [r|] eqn:E; simpl in H;
    [|discriminate].
  injection H as <-. simpl.
  apply (foldM_invariant (feed_step w)
           (fun s => Forall populated (rows s) /\
                     Forall populated_new (pending s))) in F.
  - destruct F as [Hr Hp]. exact (flush_populated _ _ _ E Hr Hp).
  - intros a url a' Ha Hstep. unfold feed_step in Hstep.
    rewrite process_feed_fold in Hstep.
    destruct (get_feed feedparser_parse w url) as [es|]; simpl in Hstep;
      [|discriminate].
    apply (foldM_invariant (entry_step w)
             (fun s => Forall populated (rows s) /\
                       Forall populated_new (pending s)))
      with (l := es) (a := a); auto.
    intros x y z. apply entry_step_populated.
  - simpl. auto.
Qed.

(** X4.  Passes store no NULL.  When every stored article has a date
    and a summary, so has every article after any number of passes: the
    loop always fills [published] (with the clock reading at the worst)
    and [summary] (with the empty text at the worst). *)
Theorem passes_store_no_null (ws : list world) :
  forall db,
    Forall populated db ->
    Forall populated
      (run_passes amsterdam_utcoffset mktime strptime feedparser_parse ws db).
Proof.
  induction ws as [|w ws IH]; simpl; intros db H; [exact H|].
  apply IH. now apply pass_populated.
Qed.

End PassFacts.

(** The third feed carries an entry without a title under a link that
    the first feed has stored in an earlier pass: nothing is raised. *)
Lemma known_links_change_nothing_witness :
  let db := Example.run_passes
              [Example.world_of (Example.ok "storm") (Example.ok "")
                                (Example.ok "")] [] in
  let known := mkEntry None (Some (lit "http://x/1")) None None None None in
  exists c,
    update_feed Example.amsterdam_utcoffset Example.mktime Example.strptime
                (fun body => if str_eqb body (lit "untitled") then [known]
                             else Example.feedparser_parse body)
                (Example.world_of (Example.ok "storm") (Example.ok "")
                                  (Example.ok "untitled")) db = Ok c /\
    table c = db.
Proof.
  intros db known.
  apply (known_links_change_nothing
           Example.amsterdam_utcoffset Example.mktime Example.strptime
           (fun body => if str_eqb body (lit "untitled") then [known]
                        else Example.feedparser_parse body)
           (Example.world_of (Example.ok "storm") (Example.ok "")
                             (Example.ok "untitled")) db).
  intros url Hurl. unfold RSS_FEEDS in Hurl. simpl in Hurl.
  repeat (destruct Hurl as [<-|Hurl];
          [eexists; split;
           [vm_compute; reflexivity
           |intros e He; simpl in He;
            repeat (destruct He as [<-|He];
                    [eexists; split; [reflexivity | left; reflexivity]|]);
            destruct He]|]).
  destruct Hurl.
Defined.

(** The same three feeds read twice. *)
Lemma second_pass_adds_nothing_witness :
  let w := Example.world_of (Example.ok "storm twice") (Example.ok "rain")
                            (Example.ok "sparse") in
  let db := table_after [] (Example.update_feed w []) in
  List.length db = 5%nat /\
  exists c', Example.update_feed w db = Ok c' /\ table c' = db.
Proof.
  intros w db. split; [reflexivity|].
  destruct (Example.update_feed w []) as [c|] eqn:H; [|discriminate].
  apply (second_pass_adds_nothing
           Example.amsterdam_utcoffset Example.mktime Example.strptime
           Example.feedparser_parse w w [] c).
  - constructor.
  - unfold db. rewrite <- H. vm_compute. reflexivity.
  - reflexivity.
Defined.

(** A link that comes twice in the first feed and once more in the
    third: no IntegrityError. *)
Lemma exceptions_of_a_pass_witness :
  Example.update_feed
    (Example.world_of (Example.ok "storm twice") (Example.ok "rain")
                      (Example.ok "storm")) []
  <> Raise IntegrityError.
Proof.
  apply (exceptions_of_a_pass
           Example.amsterdam_utcoffset Example.mktime Example.strptime
           Example.feedparser_parse
           (Example.world_of (Example.ok "storm twice") (Example.ok "rain")
                             (Example.ok "storm")) []).
  - constructor.
  - intros url Hurl. unfold RSS_FEEDS in Hurl. simpl in Hurl.
    repeat (destruct Hurl as [<-|Hurl]; [vm_compute; discriminate|]).
    destruct Hurl.
Defined.

(** Entries without dates, summary or description, over two passes. *)
Lemma passes_store_no_null_witness :
  Forall populated
    (Example.run_passes
       [Example.world_of (Example.ok "sparse") (Example.ok "bare")
                         (Example.ok "");
        Example.world_of (Example.ok "storm") (Example.ok "rain")
                         (Example.ok "sparse")] []).
Proof.
  apply (passes_store_no_null
           Example.amsterdam_utcoffset Example.mktime Example.strptime
           Example.feedparser_parse).
  constructor.
Defined.

(** The article stored for the entry that has a time tuple and a
    description. *)
Lemma stored_articles_come_from_entries_witness :
  let w := Example.world_of (Example.ok "sparse") (Example.ok "")
                            (Example.ok "") in
  let a := mkArticle 2 (lit "Tuple") (lit "http://x/7")
                     (Some (mkDatetime 1704070800000000 (Some Amsterdam)))
                     (Some (lit "described")) in
  In a [] \/
  exists url entries e,
    In url RSS_FEEDS /\
    get_feed Example.feedparser_parse w url = Ok entries /\
    In e entries /\
    stored_from Example.amsterdam_utcoffset Example.mktime Example.strptime
                w e a.
Proof.
  intros w a.
  apply (stored_articles_come_from_entries
           Example.amsterdam_utcoffset Example.mktime Example.strptime
           Example.feedparser_parse w []
           (mkCommitted (table_after [] (Example.update_feed w []))
                        (mkDatetime (Example.noon + 3 + 3600 * Example.usec)
                                    (Some Amsterdam)))
           a).
  - constructor.
  - vm_compute. reflexivity.
  - vm_compute. right. left. reflexivity.
Defined.

(** The link [http://x/1] comes twice in the first feed, under two
    titles, and once more in the third feed. *)
Lemma first_entry_wins_witness :
  let w := Example.world_of (Example.ok "storm twice") (Example.ok "")
                            (Example.ok "storm") in
  let c := mkCommitted (table_after [] (Example.update_feed w []))
                       (mkDatetime (Example.noon + 3 + 3600 * Example.usec)
                                   (Some Amsterdam)) in
  exists a,
    In a (table c) /\ link a = lit "http://x/1" /\
    stored_from Example.amsterdam_utcoffset Example.mktime Example.strptime
                w Example.storm a /\
    count_link (lit "http://x/1") (table c) = 1%nat.
Proof.
  intros w c.
  apply (first_entry_wins
           Example.amsterdam_utcoffset Example.mktime Example.strptime
           Example.feedparser_parse w [] c
           [] (tl RSS_FEEDS) Example.nos
           [] [Example.storm_again] Example.storm (lit "http://x/1")).
  - constructor.
  - intros [].
  - vm_compute. reflexivity.
  - reflexivity.
  - intros u entries e [].
  - vm_compute. reflexivity.
  - intros e [].
  - reflexivity.
Defined.

(** * Deduplication and entries with fields missing *)

(** the worlds of the examples are acceptable when their bodies are *)
Ltac acceptable_example :=
  let url := fresh "url" in
  let Hurl := fresh "Hurl" in
  intros url Hurl; unfold RSS_FEEDS in Hurl; simpl in Hurl;
  repeat (destruct Hurl as [<-|Hurl];
          [eexists; split;
           [vm_compute; reflexivity
           |let e := fresh "e" in
            let He := fresh "He" in
            intros e He; simpl in He;
            repeat (destruct He as [<-|He]; [vm_compute; reflexivity|]);
            destruct He]|]);
  destruct Hurl.

(** C1.  Start from a table whose links are distinct and run any number
    of passes.  Let one of them read feeds that all answer with entries
    the loop can store (link, title, dates in range), and let an entry of
    one of its feeds carry the link [l].  Then that pass commits, however
    often [l] comes in its feeds and whether or not [l] was stored before,
    and at the end of all passes the table holds exactly one article with
    link [l]; no two articles share a link. *)
Theorem dedup_one_article_per_link
        (amsterdam_utcoffset : Z -> Z) (mktime : struct_time -> option Z)
        (strptime : str -> str -> option (Z * Z))
        (feedparser_parse : str -> list Entry)
        (before after : list world) (w : world) (db : list Article)
        (url : str) (entries : list Entry) (e : Entry) (l : str) :
  NoDup (links db) ->
  acceptable_world amsterdam_utcoffset mktime strptime feedparser_parse w ->
  In url RSS_FEEDS ->
  get_feed feedparser_parse w url = Ok entries ->
  In e entries ->
  e_link e = Some l ->
  let final := run_passes amsterdam_utcoffset mktime strptime feedparser_parse
                          (before ++ w :: after) db in
  (exists c,
     update_feed amsterdam_utcoffset mktime strptime feedparser_parse w
       (run_passes amsterdam_utcoffset mktime strptime feedparser_parse
                   before db) = Ok c) /\
  count_link l final = 1%nat /\ NoDup (links final).
Proof.
  intros Hnd Hw Hurl Hget He Hl final.
  pose proof (run_passes_NoDup amsterdam_utcoffset mktime strptime
                feedparser_parse before db Hnd) as Hnd1.
  destruct (update_feed_accepts amsterdam_utcoffset mktime strptime
              feedparser_parse w _ Hnd1 Hw) as [c Hc].
  assert (Hfin : NoDup (links final)) by now apply run_passes_NoDup.
  split; [now exists c|]. split; [|exact Hfin].
  apply count_link_once; [exact Hfin|].
  unfold final. rewrite run_passes_app. simpl. rewrite Hc. simpl.
  eapply extends_links; [apply run_passes_extends|].
  destruct (update_feed_commits _ _ _ _ w _ c Hnd1 Hc) as (_ & _ & Hall).
  destruct (Hall url Hurl) as (es & Hes & Hin).
  rewrite Hget in Hes. injection Hes as <-.
  destruct (Hin e He) as (l' & Hl' & Hin'). congruence.
Qed.

(** Two passes over feeds that carry the link [http://x/1] four times,
    twice in one feed of the second pass. *)
Lemma dedup_one_article_per_link_witness :
  let w1 := Example.world_of (Example.ok "storm") (Example.ok "rain")
                             (Example.ok "") in
  let w2 := Example.world_of (Example.ok "storm twice") (Example.ok "")
                             (Example.ok "storm") in
  let final := Example.run_passes [w1; w2] [] in
  (exists c, Example.update_feed w2 (Example.run_passes [w1] []) = Ok c) /\
  count_link (lit "http://x/1") final = 1%nat /\ NoDup (links final).
Proof.
  intros w1 w2 final. subst w1 w2 final.
  apply (dedup_one_article_per_link
           Example.amsterdam_utcoffset Example.mktime Example.strptime
           Example.feedparser_parse
           [Example.world_of (Example.ok "storm") (Example.ok "rain")
                             (Example.ok "")]
           []
           (Example.world_of (Example.ok "storm twice") (Example.ok "")
                             (Example.ok "storm"))
           []
           Example.nos [Example.storm; Example.storm_again]
           Example.storm_again (lit "http://x/1")).
  - constructor.
  - acceptable_example.
  - left. reflexivity.
  - vm_compute. reflexivity.
  - right. left. reflexivity.
  - reflexivity.
Defined.

(** C7, as the code has it.  In a table with distinct links:
    - a pass whose feeds all answer with entries that have a link, a
      title and dates in range commits, whatever else the entries lack;
      an entry without date fields is such an entry;
    - in a pass that commits, the first entry that carries a link which
      is not stored yet is stored under its title, with its summary or
      description as summary (the empty text when it has neither) and,
      when it has no date fields, with the reading of the clock as date;
    - an entry without a link makes the pass raise, and the table stays
      as it was;
    - an entry without a title whose link is not stored yet raises
      [AttributeError], once its date is worked out. *)
Theorem entries_with_missing_fields
        (amsterdam_utcoffset : Z -> Z) (mktime : struct_time -> option Z)
        (strptime : str -> str -> option (Z * Z))
        (feedparser_parse : str -> list Entry)
        (w : world) (db : list Article) :
  NoDup (links db) ->
  (acceptable_world amsterdam_utcoffset mktime strptime feedparser_parse w ->
   exists c,
     update_feed amsterdam_utcoffset mktime strptime feedparser_parse w db
     = Ok c)
  /\
  (forall e,
     e_link e <> None -> e_title e <> None -> e_pubDate e = None ->
     e_published_parsed e = None \/ e_published_parsed e = Some None ->
     acceptable amsterdam_utcoffset mktime strptime e = true)
  /\
  (forall c earlier later url pre post e1 l,
     update_feed amsterdam_utcoffset mktime strptime feedparser_parse w db
     = Ok c ->
     ~ In l (links db) ->
     RSS_FEEDS = earlier ++ url :: later ->
     (forall u entries e,
        In u earlier -> get_feed feedparser_parse w u = Ok entries ->
        In e entries -> e_link e <> Some l) ->
     get_feed feedparser_parse w url = Ok (pre ++ e1 :: post) ->
     (forall e, In e pre -> e_link e <> Some l) ->
     e_link e1 = Some l ->
     exists a,
       In a (table c) /\ link a = l /\ count_link l (table c) = 1%nat /\
       e_title e1 = Some (title a) /\
       summary a = Some (summary_text e1) /\
       (e_summary e1 = None -> e_description e1 = None ->
        summary a = Some []) /\
       (e_pubDate e1 = None ->
        e_published_parsed e1 = None \/ e_published_parsed e1 = Some None ->
        exists k, published a = Some (utcnow (clock w k))))
  /\
  (forall url entries e,
     In url RSS_FEEDS -> get_feed feedparser_parse w url = Ok entries ->
     In e entries -> e_link e = None ->
     exists ex,
       update_feed amsterdam_utcoffset mktime strptime feedparser_parse w db
       = Raise ex /\
       table_after db
         (update_feed amsterdam_utcoffset mktime strptime feedparser_parse
                      w db) = db)
  /\
  (forall s r e l d,
     view s = Ok r -> e_link e = Some l -> ~ In l (links r) ->
     e_title e = None ->
     published_dt amsterdam_utcoffset mktime strptime e (clock w (tick s))
     = Ok d ->
     process_entry amsterdam_utcoffset mktime strptime w s e
     = Raise (AttributeError (lit "title"))).
Proof.
  intros Hnd. split; [|split; [|split; [|split]]].
  - intros Hw.
    apply (update_feed_accepts amsterdam_utcoffset mktime strptime
             feedparser_parse w db Hnd Hw).
  - intros e Hl Ht Hp Hpp. unfold acceptable, date_in_range, published_dt.
    rewrite Hp.
    destruct (e_link e); [|congruence]. destruct (e_title e); [|congruence].
    destruct Hpp as [-> | ->]; reflexivity.
  - intros c earlier later url pre post e1 l Hc Hl Hfeeds Hearlier Hget Hpre
           Hl1.
    destruct (pass_first_entry amsterdam_utcoffset mktime strptime
                feedparser_parse w db c earlier later url pre post e1 l
                Hnd Hl Hc Hfeeds Hearlier Hget Hpre Hl1)
      as (a & Hin & Hla & (_ & Ht & Hs & k & d & Hd & Hpub) & Hcount).
    exists a. repeat split; auto.
    + intros Hs1 Hs2. rewrite Hs. unfold summary_text. now rewrite Hs1, Hs2.
    + intros Hp Hpp. exists k. rewrite Hpub. f_equal.
      unfold published_dt in Hd. rewrite Hp in Hd.
      destruct Hpp as [Hpp|Hpp]; rewrite Hpp in Hd; congruence.
  - intros url entries e Hurl Hget He Hl.
    apply update_feed_raises with (url := url); [exact Hurl|].
    eapply process_feed_no_link; eassumption.
  - intros s r e l d Hv Hl Hnew Ht Hd.
    pose proof (process_entry_cases amsterdam_utcoffset mktime strptime
                  w s e r Hv) as C.
    rewrite Hl in C. apply existsb_link_is_false in Hnew.
    rewrite Hnew, Hd, Ht in C. exact C.
Qed.

(** Three entries that lack dates, summary or description, one of them
    with a date string that does not parse: the pass commits, and the
    entry with nothing but link and title is stored with the clock
    reading and the empty summary. *)
Lemma entries_with_missing_fields_witness :
  let w := Example.world_of (Example.ok "sparse") (Example.ok "")
                            (Example.ok "") in
  exists c,
    Example.update_feed w [] = Ok c /\
    exists a,
      In a (table c) /\ link a = lit "http://x/4" /\
      e_title Example.bare = Some (title a) /\
      summary a = Some [] /\
      exists k, published a = Some (utcnow (clock w k)).
Proof.
  intros w. subst w.
  destruct (entries_with_missing_fields
              Example.amsterdam_utcoffset Example.mktime Example.strptime
              Example.feedparser_parse
              (Example.world_of (Example.ok "sparse") (Example.ok "")
                                (Example.ok ""))
              [] (NoDup_nil _))
    as (A & _ & B & _).
  destruct A as [c Hc]; [acceptable_example|].
  exists c. split; [exact Hc|].
  destruct (B c [] (tl RSS_FEEDS) Example.nos
              [Example.bad_pubDate; Example.tuple_only] []
              Example.bare (lit "http://x/4") Hc)
    as (a & Hin & Hl & _ & Ht & _ & Hs & Hp).
  - intros [].
  - reflexivity.
  - intros u entries e [].
  - vm_compute. reflexivity.
  - intros e [<-|[<-|[]]]; discriminate.
  - reflexivity.
  - exists a.
    split; [exact Hin|]. split; [exact Hl|]. split; [exact Ht|].
    split; [apply Hs; reflexivity|].
    apply Hp; [reflexivity | now left].
Defined.

(** * Further properties of the queries *)


Lemma key_lt_le_trans (x y z : option Z) :
  key_lt y x = true -> key_lt y z = false -> key_lt x z = false.
Proof.
  destruct x, y, z; simpl; try congruence.
  rewrite !Z.ltb_lt, !Z.ltb_ge. lia.
Qed.

Lemma key_lt_asym (x y : option Z) :
  key_lt x y = true -> key_lt y x = false.
Proof.
  destruct x, y; simpl; try congruence.
  rewrite Z.ltb_lt, Z.ltb_ge. lia.
Qed.

Lemma key_le_lt_trans (x y z : option Z) :
  key_lt y z = false -> key_lt y x = true -> key_lt z x = true.
Proof.
  destruct x, y, z; simpl; try congruence.
  rewrite Z.ltb_ge, !Z.ltb_lt. lia.
Qed.

Lemma insert_desc_dates (a : Article) (l : list Article) :
  dates_descend l -> dates_descend (insert_desc a l).
Proof.
  unfold dates_descend.
  induction l as [|b l IH]; simpl; intros Hs; [repeat constructor|].
  inversion Hs as [|x xs Hs' Hb]; subst.
  destruct (key_lt (sort_key b) (sort_key a)) eqn:E.
  - constructor; [exact Hs|].
    constructor; [now apply key_lt_asym|].
    rewrite Forall_forall in *. intros c Hc.
    eapply key_lt_le_trans; [exact E | now apply Hb].
  - constructor; [now apply IH|].
    rewrite Forall_forall in *. intros c Hc.
    apply (Permutation_in _ (Permutation_sym (insert_desc_perm a l))) in Hc.
    destruct Hc as [<-|Hc]; [exact E | now apply Hb].
Qed.

Lemma insert_desc_first (a : Article) (l : list Article) :
  Forall (fun c => key_lt (sort_key c) (sort_key a) = true) l ->
  insert_desc a l = a :: l.
Proof.
  destruct l as [|b l]; simpl; [reflexivity|].
  intros H. inversion H as [|x xs Hb _]; subst. now rewrite Hb.
Qed.

Lemma filter_insert_desc (f : Article -> bool) (a : Article)
      (l : list Article) :
  dates_descend l ->
  List.filter f (insert_desc a l) =
  if f a then insert_desc a (List.filter f l) else List.filter f l.
Proof.
  unfold dates_descend.
  induction l as [|b l IH]; intros Hs.
  - simpl. now destruct (f a).
  - inversion Hs as [|x xs Hs' Hb]; subst.
    cbn [insert_desc]. destruct (key_lt (sort_key b) (sort_key a)) eqn:E.
    + cbn [List.filter]. destruct (f a) eqn:Fa; [|reflexivity].
      destruct (f b) eqn:Fb.
      * cbn [insert_desc]. now rewrite E.
      * symmetry. apply insert_desc_first.
        rewrite Forall_forall in *. intros c Hc.
        apply filter_In in Hc. destruct Hc as [Hc _].
        eapply key_le_lt_trans; [apply Hb; exact Hc | exact E].
    + cbn [List.filter]. rewrite (IH Hs').
      destruct (f a) eqn:Fa, (f b) eqn:Fb; try reflexivity.
      cbn [insert_desc]. now rewrite E.
Qed.

Lemma filter_fold_insert_desc (f : Article -> bool) (rows : list Article) :
  forall index,
    dates_descend index ->
    fold_left (fun index a => insert_desc a index) (List.filter f rows)
              (List.filter f index)
    = List.filter f (fold_left (fun index a => insert_desc a index)
                               rows index).
Proof.
  induction rows as [|a rows IH]; intros index Hs; [reflexivity|].
  cbn [List.filter fold_left].
  rewrite <- (IH (insert_desc a index) (insert_desc_dates a index Hs)).
  rewrite (filter_insert_desc f a index Hs).
  destruct (f a); reflexivity.
Qed.

(** X10.  Searching is filtering the recent order: [search term n] is
    the first [n] matching articles of the whole table in the order of
    [recent], so a match is never shown before a newer match, and the
    matches shown keep the places they have among themselves without
    the term. *)
Theorem search_filters_the_recent_order (term : str) (n : nat)
        (rows : list Article) :
  search term n rows =
  firstn n (List.filter (search_filter term) (order_by_published_desc rows)).
Proof.
  unfold search, order_by_published_desc. f_equal.
  apply (filter_fold_insert_desc (search_filter term) rows []).
  constructor.
Qed.

Lemma StronglySorted_app_inv {A : Type} (R : A -> A -> Prop)
      (l1 l2 : list A) :
  StronglySorted R (l1 ++ l2) ->
  forall a b, In a l1 -> In b l2 -> R a b.
Proof.
  induction l1 as [|c l1 IH]; simpl; intros Hs a b Ha Hb; [tauto|].
  inversion Hs as [|x xs Hs' Hc]; subst.
  destruct Ha as [<-|Ha].
  - rewrite Forall_forall in Hc. apply Hc. apply in_or_app. now right.
  - now apply IH.
Qed.

(** X11.  [recent n] shows the newest: in a table whose ids ascend,
    every stored article that is left out comes, in the order of dates
    and ids, after every article that is shown.  The page shows
    [recent 25], the feed without a term [recent 10]. *)
Theorem recent_shows_the_newest (n : nat) (rows : list Article)
        (a b : Article) :
  ids_ascend rows ->
  In a (recent n rows) -> In b rows -> ~ In b (recent n rows) ->
  before a b.
Proof.
  intros Hasc Ha Hb Hnot. unfold recent in *.
  pose proof (order_by_published_desc_sorted rows Hasc) as S.
  pose proof (order_by_published_desc_perm rows) as P.
  rewrite <- (firstn_skipn n (order_by_published_desc rows)) in S, P.
  apply (StronglySorted_app_inv _ _ _ S a b Ha).
  apply (Permutation_in _ P) in Hb. apply in_app_or in Hb. tauto.
Qed.

Lemma recent_shows_the_newest_witness :
  let row i d := mkArticle i (lit "t") [N.of_nat (Z.to_nat i)] d None in
  let rows := [row 1 (Some (mkDatetime 50 None)); row 2 None;
               row 3 (Some (mkDatetime 70 None));
               row 4 (Some (mkDatetime 50 None))] in
  before (row 1 (Some (mkDatetime 50 None))) (row 4 (Some (mkDatetime 50 None))).
Proof.
  intros row rows.
  apply (recent_shows_the_newest 2 rows).
  - unfold ids_ascend, rows, row. repeat (constructor; simpl; try lia).
  - vm_compute. right. left. reflexivity.
  - vm_compute. do 3 right. left. reflexivity.
  - vm_compute. intros [H|[H|[]]]; discriminate.
Defined.

(** terms that are equal up to ASCII case select the same articles *)
Lemma search_filter_case (t t' : str) (a : Article) :
  List.map sqlite_lower t = List.map sqlite_lower t' ->
  search_filter t a = search_filter t' a.
Proof.
  intros H. unfold search_filter, ilike.
  change ([percent] ++ t ++ [percent]) with (percent :: t ++ [percent]).
  change ([percent] ++ t' ++ [percent]) with (percent :: t' ++ [percent]).
  rewrite !map_cons, !map_app, H. reflexivity.
Qed.

(** X7.  The case of the ASCII letters of the term does not matter:
    two terms that differ only in it give the same search result. *)
Theorem search_ignores_the_case_of_the_term (t t' : str) (n : nat)
        (rows : list Article) :
  List.map sqlite_lower t = List.map sqlite_lower t' ->
  search t n rows = search t' n rows.
Proof.
  intros H. unfold search. do 2 f_equal.
  apply filter_ext. intros a. now apply search_filter_case.
Qed.

Lemma search_ignores_the_case_of_the_term_witness :
  let a := mkArticle 1 (lit "Storm warning issued") (lit "http://x/1")
                     (Some (mkDatetime 50 None)) (Some []) in
  let b := mkArticle 2 (lit "Rain") (lit "http://x/2") None None in
  search (lit "sToRM") 10 [a; b] = search (lit "storm") 10 [a; b].
Proof.
  intros a b.
  apply (search_ignores_the_case_of_the_term (lit "sToRM") (lit "storm")).
  reflexivity.
Defined.

(** ** White space around the term *)

Lemma lstrip_app_spaces (pre t : str) :
  forallb is_space pre = true -> lstrip (pre ++ t) = lstrip t.
Proof.
  induction pre as [|c pre IH]; simpl; [reflexivity|].
  intros H. apply andb_true_iff in H. destruct H as [Hc H].
  rewrite Hc. now apply IH.
Qed.

Lemma forallb_rev {A : Type} (f : A -> bool) (l : list A) :
  forallb f (rev l) = forallb f l.
Proof.
  induction l as [|a l IH]; simpl; [reflexivity|].
  rewrite forallb_app, IH. simpl. rewrite andb_true_r. apply andb_comm.
Qed.

Lemma rstrip_app_spaces (t post : str) :
  forallb is_space post = true -> rstrip (t ++ post) = rstrip t.
Proof.
  intros H. unfold rstrip. rewrite rev_app_distr.
  rewrite lstrip_app_spaces; [reflexivity|]. now rewrite forallb_rev.
Qed.

Lemma strip_app_spaces (t post : str) :
  forallb is_space post = true -> strip (t ++ post) = strip t.
Proof.
  intros H. unfold strip. fold (rstrip (lstrip (t ++ post))).
  fold (rstrip (lstrip t)).
  induction t as [|c t IH].
  - simpl app. rewrite (lstrip_spaces post H).
    reflexivity.
  - cbn [app lstrip]. destruct (is_space c); [exact IH|].
    change (c :: t ++ post) with ((c :: t) ++ post).
    now apply rstrip_app_spaces.
Qed.

(** X8.  White space before and after the term is ignored: the request
    with the padded term gets the response of the request with the term. *)
Theorem padding_of_the_term_is_ignored (strftime : datetime -> str -> str)
        (pre t post : str) (rows : list Article) :
  forallb is_space pre = true -> forallb is_space post = true ->
  rss_feed strftime (Some (pre ++ t ++ post)) rows
  = rss_feed strftime (Some t) rows.
Proof.
  intros Hpre Hpost. unfold rss_feed, rss_articles, args_get_q.
  assert (E : strip (pre ++ t ++ post) = strip t).
  { rewrite <- (strip_app_spaces t post Hpost).
    unfold strip. now rewrite (lstrip_app_spaces pre (t ++ post) Hpre). }
  now rewrite E.
Qed.

Lemma padding_of_the_term_is_ignored_witness :
  let a := mkArticle 1 (lit "Storm warning issued") (lit "http://x/1")
                     (Some (mkDatetime 50 None)) (Some []) in
  let b := mkArticle 2 (lit "Rain") (lit "http://x/2") None None in
  rss_feed Example.strftime (Some (lit "  " ++ lit "storm" ++ [9%N; 160%N]))
           [a; b]
  = rss_feed Example.strftime (Some (lit "storm")) [a; b].
Proof.
  intros a b.
  apply (padding_of_the_term_is_ignored Example.strftime). 
  - reflexivity.
  - reflexivity.
Defined.

(** ** A term of wildcards *)







